(** * Host/path routing of shrpx: a shallow embedding of src/shrpx_config.cc

    The development covers the pattern table built by [parse_mapping] and
    the request-time lookup [match_downstream_addr_group] together with its
    helpers [path_match], [match] and [match_downstream_addr_group_host].

    A [std::string] is a [list ascii]; an iterator into a string is the
    offset ([nat]) from its [begin()]; a half-open iterator range is the
    list of characters it spans.  [size_t] values are [nat] (the lengths
    involved are string and vector sizes, so no wrap-around occurs) and the
    [ssize_t] result of [match], which uses [-1] as "none", is a [Z]. *)

From Stdlib Require Import Ascii String Bool Arith ZArith Lia List.
Import ListNotations.

Local Open Scope char_scope.
Local Open Scope list_scope.
Local Open Scope nat_scope.

(** String literals of the C++ source, as character lists. *)
Definition str (s : string) : list ascii := list_ascii_of_string s.

(** ** Library routines used by the source *)

Module Std.

(** [std::find(first, last, c)] over the range spanning [s]: the offset of
    the first [c], or [length s] (the [last] iterator) when there is none. *)
Fixpoint find (s : list ascii) (c : ascii) : nat :=
  match s with
  | [] => 0
  | x :: t => if Ascii.eqb x c then 0 else S (find t c)
  end.

(** [std::equal(first1, last1, first2)]: [r1] is the first range, [r2] the
    characters available from [first2] on.  Reading past the end of [r2]
    is outside the contract of [std::equal]; every call in the source is
    guarded by a size comparison, and the model answers [false] there. *)
Fixpoint equal (r1 r2 : list ascii) : bool :=
  match r1, r2 with
  | [], _ => true
  | _ :: _, [] => false
  | c1 :: t1, c2 :: t2 => Ascii.eqb c1 c2 && equal t1 t2
  end.

(** [s.back()], the last character.  On an empty string [back] is outside
    its contract ([path_match] asserts [!pattern.empty()]); the model
    answers the terminating NUL. *)
Definition back (s : list ascii) : ascii := last s zero.

(** [strchr(s, c)] on a C string: [Some] offset of the first [c], or [None]
    for the null pointer. *)
Definition strchr (s : list ascii) (c : ascii) : option nat :=
  let i := find s c in if i <? length s then Some i else None.

End Std.

Module Util.

(** Modelled from the spec: [util::startsWith] (util.h is not part of the
    sources at hand).  The spec reads the call in [path_match] as "the
    remainder of pattern (after the host prefix) is a prefix of path": the
    first range [r1] starts with the second range [r2]. *)
Definition startsWith (r1 r2 : list ascii) : bool :=
  if length r1 <? length r2 then false else Std.equal r2 r1.

(** Modelled from the spec: the per-character step of [util::inp_strlower]
    (util.h is not part of the sources at hand); "lowercase" maps the
    ASCII letters 'A'..'Z' to 'a'..'z' and keeps every other byte. *)
Definition lowcase (c : ascii) : ascii :=
  let n := nat_of_ascii c in
  if (65 <=? n) && (n <=? 90) then ascii_of_nat (n + 32) else c.

(** Modelled from the spec: [util::inp_strlower], lowercasing a string in
    place; the model returns the new contents. *)
Definition inp_strlower (s : list ascii) : list ascii := map lowcase s.

End Util.

(** ** The group table *)

(** Modelled from the spec: [DownstreamAddr] is declared in shrpx_config.h
    (not part of the sources at hand); the spec's BackendAddress has a
    [host] string, a [port] and the [host_unix] flag. *)
Record DownstreamAddr : Type := mkDownstreamAddr {
  host : list ascii;
  port : nat;
  host_unix : bool
}.

(** [DownstreamAddrGroup]: the pattern and the pool of addresses, as
    [parse_mapping] uses them ([g.pattern], [g.addrs]). *)
Record DownstreamAddrGroup : Type := mkDownstreamAddrGroup {
  pattern : list ascii;
  addrs : list DownstreamAddr
}.

(** ** Request-time matching *)

(** [path_match(pattern, host, path_first, path_last)]; [path] is the range
    [path_first, path_last).  [std::begin(pattern) + host.size()] is
    [skipn (length host) pattern]. *)
Definition path_match (pattern host path : list ascii) : bool :=
  if negb (Ascii.eqb (Std.back pattern) "/") then
    (length pattern =? length host + length path)
    && Std.equal host pattern
    && Std.equal path (skipn (length host) pattern)
  else if (length host <=? length pattern)
          && Std.equal host pattern
          && Util.startsWith path (skipn (length host) pattern)
  then true
  else
    (length pattern - 1 =? length host + length path)
    && Std.equal host pattern
    && Std.equal path (skipn (length host) pattern).

(** The loop of [match]: [i] is the loop counter, [res] and [best] the two
    locals; [groups] is what remains of the vector from index [i] on. *)
Fixpoint match_loop (host path : list ascii) (groups : list DownstreamAddrGroup)
    (i : nat) (res : Z) (best : nat) : Z :=
  match groups with
  | [] => res
  | g :: rest =>
      if negb (path_match (pattern g) host path) then
        match_loop host path rest (S i) res best
      else if (res =? -1)%Z || (best <? length (pattern g)) then
        match_loop host path rest (S i) (Z.of_nat i) (length (pattern g))
      else
        match_loop host path rest (S i) res best
  end.

(** [match(host, path_first, path_last, groups)] ([match] is a keyword). *)
Definition match_ (host path : list ascii)
    (groups : list DownstreamAddrGroup) : Z :=
  match_loop host path groups 0 (-1)%Z 0.

(** [match_downstream_addr_group_host]; the logging has no effect on the
    result.  [return group] converts the non-negative [ssize_t] to
    [size_t]. *)
Definition match_downstream_addr_group_host (host path : list ascii)
    (groups : list DownstreamAddrGroup) (catch_all : nat) : nat :=
  if (length path =? 0) || negb (Ascii.eqb (nth 0 path zero) "/") then
    let group := match_ host (str "/") groups in
    if negb (group =? -1)%Z then Z.to_nat group
    else catch_all
  else
    let group := match_ host path groups in
    if negb (group =? -1)%Z then Z.to_nat group
    else
      let group := match_ [] path groups in
      if negb (group =? -1)%Z then Z.to_nat group
      else catch_all.

(** The path range of [match_downstream_addr_group]: [fragment] and
    [query] are the two iterators, the range is [begin(raw_path), query). *)
Definition path_span (raw_path : list ascii) : list ascii :=
  let fragment := Std.find raw_path "#" in
  let query := Std.find (firstn fragment raw_path) "?" in
  firstn query raw_path.

(** The block of [match_downstream_addr_group] that fills the local
    [host] from a non-empty [hostport]; [None] stands for its early
    [return catch_all]. *)
Definition extract_host (hostport : list ascii) : option (list ascii) :=
  if Ascii.eqb (nth 0 hostport zero) "[" then
    let p := Std.find hostport "]" in
    if p =? length hostport then None
    else if (p + 1 <? length hostport)
            && negb (Ascii.eqb (nth (p + 1) hostport zero) ":") then None
    else Some (firstn (p + 1) hostport)
  else
    let p := Std.find hostport ":" in
    if p =? 0 then None
    else Some (firstn p hostport).

(** [match_downstream_addr_group(hostport, raw_path, groups, catch_all)]. *)
Definition match_downstream_addr_group (hostport raw_path : list ascii)
    (groups : list DownstreamAddrGroup) (catch_all : nat) : nat :=
  if negb (Std.find hostport "/" =? length hostport) then catch_all
  else
    let path := path_span raw_path in
    match hostport with
    | [] => match_downstream_addr_group_host hostport path groups catch_all
    | _ :: _ =>
        match extract_host hostport with
        | None => catch_all
        | Some host =>
            match_downstream_addr_group_host (Util.inp_strlower host) path
              groups catch_all
        end
    end.

(** ** Building the table *)

Module Config.

(** [parse_config_str_list(s, delim)]: the pieces of [s] between the
    occurrences of [delim], at least one (possibly empty) piece. *)
Fixpoint parse_config_str_list (s : list ascii) (delim : ascii)
    : list (list ascii) :=
  match s with
  | [] => [[]]
  | c :: t =>
      if Ascii.eqb c delim then [] :: parse_config_str_list t delim
      else
        match parse_config_str_list t delim with
        | [] => [[c]]
        | w :: ws => (c :: w) :: ws
        end
  end.

(** [g.pattern == pattern] on [std::string]: same size, same characters. *)
Definition string_eq (a b : list ascii) : bool :=
  (length a =? length b) && Std.equal a b.

(** The scan of [parse_mapping] over the existing groups: the first group
    whose pattern equals [pat] receives [addr] at the back of its pool.
    The boolean is the local [done]. *)
Fixpoint push_existing (groups : list DownstreamAddrGroup) (pat : list ascii)
    (addr : DownstreamAddr) : bool * list DownstreamAddrGroup :=
  match groups with
  | [] => (false, [])
  | g :: rest =>
      if string_eq (pattern g) pat then
        (true, mkDownstreamAddrGroup (pattern g) (addrs g ++ [addr]) :: rest)
      else
        let (done, rest') := push_existing rest pat addr in
        (done, g :: rest')
  end.

(** One round of the outer loop of [parse_mapping], once the pattern is
    known: merge into an existing group or push a new singleton group. *)
Definition add_group (groups : list DownstreamAddrGroup) (pat : list ascii)
    (addr : DownstreamAddr) : list DownstreamAddrGroup :=
  let (done, groups') := push_existing groups pat addr in
  if done then groups'
  else groups' ++ [mkDownstreamAddrGroup pat [addr]].

Section Mapping.

(** [http2::normalize_path(first, last)] lives in http2.cc, which is not
    part of the sources at hand; the table construction is parametric in
    it. *)
Variable normalize_path : list ascii -> list ascii.

(** The pattern [parse_mapping] computes from one [raw_pattern]. *)
Definition normalize_pattern (raw_pattern : list ascii) : list ascii :=
  match Std.strchr raw_pattern "/" with
  | None => Util.inp_strlower raw_pattern ++ str "/"
  | Some slash =>
      Util.inp_strlower (firstn slash raw_pattern)
      ++ normalize_path (skipn slash raw_pattern)
  end.

(** [parse_mapping(addr, src)]; [groups] is
    [mod_config()->downstream_addr_groups] before the call, the result is
    its value afterwards. *)
Definition parse_mapping (addr : DownstreamAddr) (src : list ascii)
    (groups : list DownstreamAddrGroup) : list DownstreamAddrGroup :=
  fold_left
    (fun groups raw_pattern =>
       add_group groups (normalize_pattern raw_pattern) addr)
    (parse_config_str_list src ":")
    groups.

End Mapping.

End Config.

(** ** Option values *)

Module Options.

(** The loop [for (; *value == '\t' || *value == ' '; ++value)] of
    [parse_header]: the string from the first character that is neither
    a tab nor a space. *)
Fixpoint skip_blanks (value : list ascii) : list ascii :=
  match value with
  | [] => []
  | c :: rest =>
      if Ascii.eqb c "009" || Ascii.eqb c " " then skip_blanks rest
      else value
  end.

(** [parse_header(optarg)]: the pair of name and value, both empty when
    the header is refused.  [colon] is the offset of the colon from
    [optarg + 1].  For the empty string [optarg + 1] lies behind the
    terminator and the call is outside its contract; the model answers
    the refusal there. *)
Definition parse_header (optarg : list ascii) : list ascii * list ascii :=
  match Std.strchr (skipn 1 optarg) ":" with
  | None => ([], [])
  | Some colon =>
      if Ascii.eqb (nth 0 optarg zero) ":" && (colon =? 0) then ([], [])
      else (firstn (1 + colon) optarg,
            skip_blanks (skipn (1 + colon + 1) optarg))
  end.

Section Address.

(** [util::parse_uint(s, len)] lives in util.cc, which is not part of the
    sources at hand: the first argument is the C string [s] points into,
    the second the value of [len]. *)
Variable parse_uint : list ascii -> Z -> Z.

(** The number of bits of [size_t]. *)
Variable size_bits : Z.

(** [split_host_port(host, hostlen, port_ptr, hostport, hostportlen)]:
    [Some] of what is written to [host] and [*port_ptr] when it returns
    0, [None] when it returns -1.  [portlen] is computed in [size_t] and
    wraps. *)
Definition split_host_port (hostlen : nat) (hostport : list ascii)
    (hostportlen : nat) : option (list ascii * Z) :=
  match Std.strchr hostport "," with
  | None => None
  | Some len =>
      if hostlen <? len + 1 then None
      else
        let portlen :=
          ((Z.of_nat hostportlen - Z.of_nat len - 1) mod 2 ^ size_bits)%Z in
        let d := parse_uint (skipn (len + 1) hostport) portlen in
        if (1 <=? d)%Z && (d <=? 65535)%Z then Some (firstn len hostport, d)
        else None
  end.

(** [util::istartsWith(optarg, SHRPX_UNIX_PATH_PREFIX)], the prefix
    itself (shrpx_config.h), [NI_MAXHOST] (netdb.h) and the
    default-constructed [DownstreamAddr] are not part of the sources at
    hand. *)
Variable istartsWith : list ascii -> list ascii -> bool.
Variable SHRPX_UNIX_PATH_PREFIX : list ascii.
Variable NI_MAXHOST : nat.
Variable DownstreamAddr_default : DownstreamAddr.

Variable normalize_path : list ascii -> list ascii.

(** The address the backend branch of [parse_config] builds from
    [optarg], whose first ';' (or end) is at offset [pat_delim]; [None]
    is its [return -1].  In the unix branch [pat_delim - path] is the
    length [strcopy] is given; it is not negative, as no ';' lies
    within the prefix [optarg] starts with. *)
Definition backend_addr (optarg : list ascii) (pat_delim : nat)
    : option DownstreamAddr :=
  if istartsWith optarg SHRPX_UNIX_PATH_PREFIX then
    let path := skipn (length SHRPX_UNIX_PATH_PREFIX) optarg in
    Some (mkDownstreamAddr
            (firstn (pat_delim - length SHRPX_UNIX_PATH_PREFIX) path)
            (port DownstreamAddr_default)
            true)
  else
    match split_host_port NI_MAXHOST optarg pat_delim with
    | None => None
    | Some (host, port) =>
        Some (mkDownstreamAddr host (Z.to_nat port)
                (host_unix DownstreamAddr_default))
    end.

(** The branch of [parse_config] for the backend option: [groups] is
    [mod_config()->downstream_addr_groups] before the call; [Some] of
    its value afterwards when the branch returns 0, [None] when it
    returns -1 (the table is then as before). *)
Definition parse_config_backend (optarg : list ascii)
    (groups : list DownstreamAddrGroup) : option (list DownstreamAddrGroup) :=
  let optarglen := length optarg in
  let pat_delim :=
    match Std.strchr optarg ";" with
    | Some i => i
    | None => optarglen
    end in
  match backend_addr optarg pat_delim with
  | None => None
  | Some addr =>
      let mapping :=
        if pat_delim <? optarglen then skipn (pat_delim + 1) optarg
        else skipn pat_delim optarg in
      match Std.strchr mapping ";" with
      | Some _ => None
      | None => Some (Config.parse_mapping normalize_path addr mapping groups)
      end
  end.

End Address.

End Options.

(** ** The access log format *)

Module LogFormat.

(** The fragment types [parse_log_format] names (the enumeration itself
    is declared in shrpx_config.h). *)
Inductive LogFragmentType : Type :=
| SHRPX_LOGF_NONE
| SHRPX_LOGF_LITERAL
| SHRPX_LOGF_REMOTE_ADDR
| SHRPX_LOGF_TIME_LOCAL
| SHRPX_LOGF_TIME_ISO8601
| SHRPX_LOGF_REQUEST
| SHRPX_LOGF_STATUS
| SHRPX_LOGF_BODY_BYTES_SENT
| SHRPX_LOGF_HTTP
| SHRPX_LOGF_REMOTE_PORT
| SHRPX_LOGF_SERVER_PORT
| SHRPX_LOGF_REQUEST_TIME
| SHRPX_LOGF_PID
| SHRPX_LOGF_ALPN
| SHRPX_LOGF_SSL_CIPHER
| SHRPX_LOGF_SSL_PROTOCOL
| SHRPX_LOGF_SSL_SESSION_ID
| SHRPX_LOGF_SSL_SESSION_REUSED.

(** [LogFragment{type, value}]; [value] is a [unique_ptr<char[]>], [None]
    for the null pointer. *)
Record LogFragment : Type := make_log_fragment {
  type : LogFragmentType;
  value : option (list ascii)
}.

(** The loop over [res.back().value] that turns each '_' into '-'. *)
Definition dash (v : list ascii) : list ascii :=
  map (fun c => if Ascii.eqb c "_" then "-" else c) v.

Section Parse.

(** [util::isAlpha], [util::isDigit], [util::strieq_l(a, b, bn)] and
    [util::istartsWith(a, an, b)] live in util.h, which is not part of
    the sources at hand.  The counted strings are passed as the
    characters they span. *)
Variable isAlpha : ascii -> bool.
Variable isDigit : ascii -> bool.
Variable strieq_l : list ascii -> list ascii -> bool.
Variable istartsWith : list ascii -> list ascii -> bool.

(** [var_token(c)]. *)
Definition var_token (c : ascii) : bool :=
  isAlpha c || isDigit c || Ascii.eqb c "_".

(** The loop [for (; p != eop && var_token( *p ); ++p)]: how far [p]
    moves, [l] being the text from [p] to [eop]. *)
Fixpoint token_run (l : list ascii) : nat :=
  match l with
  | [] => 0
  | c :: rest => if var_token c then S (token_run rest) else 0
  end.

(** The chain of comparisons on the variable name: the type and, for
    [SHRPX_LOGF_HTTP], the text [value, value + valuelen); [None] for an
    unrecognized name.  A name that starts with "http_" has five
    characters or more, so [valuelen] does not wrap. *)
Definition classify (var_name : list ascii)
    : option (LogFragmentType * option (list ascii)) :=
  if strieq_l (str "remote_addr") var_name then
    Some (SHRPX_LOGF_REMOTE_ADDR, None)
  else if strieq_l (str "time_local") var_name then
    Some (SHRPX_LOGF_TIME_LOCAL, None)
  else if strieq_l (str "time_iso8601") var_name then
    Some (SHRPX_LOGF_TIME_ISO8601, None)
  else if strieq_l (str "request") var_name then
    Some (SHRPX_LOGF_REQUEST, None)
  else if strieq_l (str "status") var_name then
    Some (SHRPX_LOGF_STATUS, None)
  else if strieq_l (str "body_bytes_sent") var_name then
    Some (SHRPX_LOGF_BODY_BYTES_SENT, None)
  else if istartsWith var_name (str "http_") then
    Some (SHRPX_LOGF_HTTP,
          Some (firstn (length var_name - 5) (skipn 5 var_name)))
  else if strieq_l (str "remote_port") var_name then
    Some (SHRPX_LOGF_REMOTE_PORT, None)
  else if strieq_l (str "server_port") var_name then
    Some (SHRPX_LOGF_SERVER_PORT, None)
  else if strieq_l (str "request_time") var_name then
    Some (SHRPX_LOGF_REQUEST_TIME, None)
  else if strieq_l (str "pid") var_name then
    Some (SHRPX_LOGF_PID, None)
  else if strieq_l (str "alpn") var_name then
    Some (SHRPX_LOGF_ALPN, None)
  else if strieq_l (str "ssl_cipher") var_name then
    Some (SHRPX_LOGF_SSL_CIPHER, None)
  else if strieq_l (str "ssl_protocol") var_name then
    Some (SHRPX_LOGF_SSL_PROTOCOL, None)
  else if strieq_l (str "ssl_session_id") var_name then
    Some (SHRPX_LOGF_SSL_SESSION_ID, None)
  else if strieq_l (str "ssl_session_reused") var_name then
    Some (SHRPX_LOGF_SSL_SESSION_REUSED, None)
  else None.

(** The text [first, first + len) of [optarg], as [strcopy] copies it. *)
Definition span (optarg : list ascii) (first len : nat) : list ascii :=
  firstn len (skipn first optarg).

(** The part of the loop body behind the variable name: [var_start] is
    the offset of the '$', [p] the offset behind the variable.  The
    result is the new [literal_start] and [res]; [None] stands for the
    [continue] on an unrecognized name. *)
Definition push_variable (optarg : list ascii)
    (literal_start var_start var_name var_namelen p : nat)
    (res : list LogFragment) : option (nat * list LogFragment) :=
  match classify (span optarg var_name var_namelen) with
  | None => None
  | Some (type, value) =>
      let res :=
        if literal_start <? var_start then
          res ++ [make_log_fragment SHRPX_LOGF_LITERAL
                    (Some (span optarg literal_start
                             (var_start - literal_start)))]
        else res in
      match value with
      | None => Some (p, res ++ [make_log_fragment type None])
      | Some v => Some (p, res ++ [make_log_fragment type (Some (dash v))])
      end
  end.

(** The main loop of [parse_log_format], at most [fuel] rounds of it:
    [Some] of [literal_start] and [res] when the loop was left with
    [p == eop], [None] when the rounds ran out first. *)
Fixpoint parse_loop (optarg : list ascii) (fuel p literal_start : nat)
    (res : list LogFragment) : option (nat * list LogFragment) :=
  let eop := length optarg in
  if p =? eop then Some (literal_start, res)
  else
    match fuel with
    | 0 => None
    | S fuel =>
        if negb (Ascii.eqb (nth p optarg zero) "$") then
          parse_loop optarg fuel (p + 1) literal_start res
        else
          let var_start := p in
          let p := p + 1 in
          if negb (p =? eop) && Ascii.eqb (nth p optarg zero) "{" then
            let var_name := p + 1 in
            let p := var_name + token_run (skipn var_name optarg) in
            if (p =? eop) || negb (Ascii.eqb (nth p optarg zero) "}") then
              parse_loop optarg fuel p literal_start res
            else
              let var_namelen := p - var_name in
              let p := p + 1 in
              match push_variable optarg literal_start var_start var_name
                      var_namelen p res with
              | None => parse_loop optarg fuel p literal_start res
              | Some (literal_start, res) =>
                  parse_loop optarg fuel p literal_start res
              end
          else
            let var_name := p in
            let p := p + token_run (skipn p optarg) in
            let var_namelen := p - var_name in
            match push_variable optarg literal_start var_start var_name
                    var_namelen p res with
            | None => parse_loop optarg fuel p literal_start res
            | Some (literal_start, res) =>
                parse_loop optarg fuel p literal_start res
            end
    end.

(** [parse_log_format(optarg)]: every round of the loop moves [p]
    forward, so [length optarg] rounds are enough
    ([parse_log_format_returns] below). *)
Definition parse_log_format (optarg : list ascii) : option (list LogFragment) :=
  match parse_loop optarg (length optarg) 0 0 [] with
  | None => None
  | Some (literal_start, res) =>
      if negb (literal_start =? length optarg) then
        Some (res ++ [make_log_fragment SHRPX_LOGF_LITERAL
                        (Some (span optarg literal_start
                                 (length optarg - literal_start)))])
      else Some res
  end.

End Parse.

End LogFormat.

(** ** Vocabulary of the statements *)

(** [s] starts with [p]. *)
Definition has_prefix (s p : list ascii) : Prop := exists t, s = p ++ t.

(** [s] contains the character [c]. *)
Definition contains (s : list ascii) (c : ascii) : Prop := In c s.

(** The patterns of a table are pairwise distinct. *)
Definition unique_patterns (groups : list DownstreamAddrGroup) : Prop :=
  NoDup (map pattern groups).

(** No group of the table matches. *)
Definition no_match (host path : list ascii)
    (groups : list DownstreamAddrGroup) : Prop :=
  forall j g, nth_error groups j = Some g ->
    path_match (pattern g) host path = false.

(** Group [r] matches with a pattern of length [b]; no matching group has
    a longer pattern, and none with a pattern of that length comes
    earlier. *)
Definition best_at (host path : list ascii)
    (groups : list DownstreamAddrGroup) (r b : nat) : Prop :=
  exists g,
    nth_error groups r = Some g
    /\ length (pattern g) = b
    /\ path_match (pattern g) host path = true
    /\ forall j g', nth_error groups j = Some g' ->
         path_match (pattern g') host path = true ->
         length (pattern g') <= b /\ (length (pattern g') = b -> r <= j).

Definition best_match (host path : list ascii)
    (groups : list DownstreamAddrGroup) (r : nat) : Prop :=
  exists b, best_at host path groups r b.

(** What the locals [res] and [best] of [match] record about the groups
    scanned so far. *)
Definition loop_inv (host path : list ascii)
    (scanned : list DownstreamAddrGroup) (res : Z) (best : nat) : Prop :=
  (res = (-1)%Z /\ no_match host path scanned)
  \/ (exists r, res = Z.of_nat r /\ best_at host path scanned r best).

(** The path starts with '/' (an origin-form request target). *)
Definition abs_path (path : list ascii) : Prop := exists t, path = "/" :: t.

(** The path is empty or does not start with '/'. *)
Definition degenerate_path (path : list ascii) : Prop :=
  path = [] \/ exists c t, path = c :: t /\ c <> "/".

(** The host the router matches with: [None] when
    [match_downstream_addr_group] returns [catch_all] before it reaches
    [match_downstream_addr_group_host].  This restates the first half of
    the router as the specification's host extraction; [route_via_host]
    below relates the two. *)
Definition request_host (hostport : list ascii) : option (list ascii) :=
  if existsb (Ascii.eqb "/") hostport then None
  else
    match hostport with
    | [] => Some []
    | _ :: _ => option_map Util.inp_strlower (extract_host hostport)
    end.

(** The answer of the router once [match] has returned [group] and the
    later tiers would answer [otherwise]. *)
Definition found_or (group : Z) (otherwise : nat) : nat :=
  if (group =? -1)%Z then otherwise else Z.to_nat group.

(** A group with no addresses, for tables of which only the patterns
    matter. *)
Definition group_of (pat : string) : DownstreamAddrGroup :=
  mkDownstreamAddrGroup (str pat) [].

(** A group that was in the table stays at its index with its pattern;
    its pool keeps its addresses and may gain [addr] at the back. *)
Definition extends (addr : DownstreamAddr)
    (g g' : DownstreamAddrGroup) : Prop :=
  pattern g' = pattern g
  /\ exists more, addrs g' = addrs g ++ more /\ Forall (eq addr) more.

Definition table_extends (addr : DownstreamAddr)
    (groups groups' : list DownstreamAddrGroup) : Prop :=
  forall i g, nth_error groups i = Some g ->
    exists g', nth_error groups' i = Some g' /\ extends addr g g'.

(** [pieces] written one after the other with [delim] between them. *)
Fixpoint join (delim : ascii) (pieces : list (list ascii)) : list ascii :=
  match pieces with
  | [] => []
  | w :: rest =>
      match rest with
      | [] => w
      | _ :: _ => w ++ delim :: join delim rest
      end
  end.

(** The path [match_downstream_addr_group_host] hands to [match]: the
    path itself when it starts with '/', the literal "/" otherwise. *)
Definition matched_path (path : list ascii) : list ascii :=
  if (length path =? 0) || negb (Ascii.eqb (nth 0 path zero) "/")
  then str "/" else path.

(** The character is a tab or a space. *)
Definition blank (c : ascii) : Prop := c = "009" \/ c = " ".

(** The fragment is a literal. *)
Definition is_literal (f : LogFormat.LogFragment) : Prop :=
  LogFormat.type f = LogFormat.SHRPX_LOGF_LITERAL.

(** The fragments are well formed: a literal carries a non-empty text,
    an HTTP header name carries a text without '_', and no literal
    follows a literal. *)
Fixpoint well_formed (res : list LogFormat.LogFragment) : Prop :=
  match res with
  | [] => True
  | f :: rest =>
      (is_literal f ->
       (exists v, LogFormat.value f = Some v /\ v <> [])
       /\ match rest with
          | [] => True
          | f' :: _ => ~ is_literal f'
          end)
      /\ (LogFormat.type f = LogFormat.SHRPX_LOGF_HTTP ->
          exists v, LogFormat.value f = Some v /\ ~ contains v "_")
      /\ well_formed rest
  end.

(** The fragments do not end in a literal. *)
Definition ends_open (res : list LogFormat.LogFragment) : Prop :=
  match rev res with
  | [] => True
  | f :: _ => ~ is_literal f
  end.

(** What [well_formed] asks of one fragment by itself. *)
Definition fragment_ok (f : LogFormat.LogFragment) : Prop :=
  (is_literal f -> exists v, LogFormat.value f = Some v /\ v <> [])
  /\ (LogFormat.type f = LogFormat.SHRPX_LOGF_HTTP ->
      exists v, LogFormat.value f = Some v /\ ~ contains v "_").

(** ** Facts about the library routines *)

Lemma equal_has_prefix (r1 r2 : list ascii) :
  Std.equal r1 r2 = true <-> has_prefix r2 r1.
Proof.
  revert r2; induction r1 as [|c1 t1 IH]; intros r2; simpl.
  - split; [intros _; exists r2; reflexivity | reflexivity].
  - destruct r2 as [|c2 t2].
    + split; [discriminate | intros [t Ht]; discriminate].
    + rewrite andb_true_iff, Ascii.eqb_eq, IH. unfold has_prefix.
      split.
      * intros [-> [t ->]]. exists t; reflexivity.
      * intros [t Ht]. simpl in Ht. injection Ht as -> ->. split; eauto.
Qed.

Lemma equal_refl (r : list ascii) : Std.equal r r = true.
Proof. apply equal_has_prefix. exists []. symmetry; apply app_nil_r. Qed.

Lemma startsWith_has_prefix (r1 r2 : list ascii) :
  Util.startsWith r1 r2 = true <-> has_prefix r1 r2.
Proof.
  unfold Util.startsWith.
  destruct (length r1 <? length r2) eqn:E.
  - apply Nat.ltb_lt in E. split; [discriminate|].
    intros [t ->]. rewrite length_app in E. lia.
  - apply equal_has_prefix.
Qed.

Lemma has_prefix_length (s p : list ascii) :
  has_prefix s p -> length p <= length s.
Proof. intros [t ->]. rewrite length_app. lia. Qed.

(** The two [std::equal] calls of [path_match] together: the pattern
    starts with host followed by path. *)
Lemma equal_host_path (P h p : list ascii) :
  Std.equal h P && Std.equal p (skipn (length h) P) = true
  <-> has_prefix P (h ++ p).
Proof.
  rewrite andb_true_iff, !equal_has_prefix. split.
  - intros [[t ->] [u Hu]].
    rewrite skipn_app, skipn_all, Nat.sub_diag in Hu. simpl in Hu. subst t.
    exists u. now rewrite app_assoc.
  - intros [u ->]. split.
    + exists (p ++ u). now rewrite app_assoc.
    + exists u. rewrite <- app_assoc, skipn_app, skipn_all, Nat.sub_diag.
      reflexivity.
Qed.

Lemma back_snoc (s : list ascii) (c : ascii) : Std.back (s ++ [c]) = c.
Proof. apply last_last. Qed.

Lemma back_decompose (s : list ascii) :
  s <> [] -> s = removelast s ++ [Std.back s].
Proof. intros H. now apply app_removelast_last. Qed.

Lemma back_slash_nonempty (s : list ascii) : Std.back s = "/" -> s <> [].
Proof. intros H ->. discriminate. Qed.

Lemma back_in (s : list ascii) : s <> [] -> In (Std.back s) s.
Proof.
  intros H. rewrite (back_decompose s H) at 2.
  apply in_or_app. right. now left.
Qed.

(** ** [path_match] *)

(** The comparison of the first branch of [path_match]: the pattern is
    host followed by path. *)
Lemma exact_branch (P h p : list ascii) :
  (length P =? length h + length p)
  && Std.equal h P && Std.equal p (skipn (length h) P) = true
  <-> h ++ p = P.
Proof.
  rewrite <- andb_assoc, andb_true_iff, equal_host_path, Nat.eqb_eq. split.
  - intros [Hlen [t Ht]]. subst P. rewrite !length_app in Hlen.
    assert (t = []) by (apply length_zero_iff_nil; lia).
    subst t. now rewrite app_nil_r.
  - intros <-. split; [now rewrite length_app|].
    exists []. now rewrite app_nil_r.
Qed.

Lemma prefix_branch (P h p : list ascii) :
  (length h <=? length P)
  && Std.equal h P && Util.startsWith p (skipn (length h) P) = true
  <-> length h <= length P /\ has_prefix (h ++ p) P.
Proof.
  rewrite !andb_true_iff, Nat.leb_le, equal_has_prefix, startsWith_has_prefix.
  split.
  - intros [[Hlen [t ->]] [u Hu]]. split; [exact Hlen|].
    rewrite skipn_app, skipn_all, Nat.sub_diag in Hu. simpl in Hu. subst p.
    exists u. now rewrite app_assoc.
  - intros [Hlen [u Hu]].
    apply app_eq_app in Hu. destruct Hu as [l [[Hh Hu] | [HP Hp]]].
    + assert (l = []).
      { apply length_zero_iff_nil. apply (f_equal (@length _)) in Hh.
        rewrite length_app in Hh. lia. }
      subst l. rewrite app_nil_r in Hh. subst h.
      repeat split; [exact Hlen | exists []; now rewrite app_nil_r |].
      rewrite skipn_all. exists p. reflexivity.
    + subst P p. repeat split; [exact Hlen | now exists l |].
      rewrite skipn_app, skipn_all, Nat.sub_diag. now exists u.
Qed.

Lemma slashless_branch (P h p : list ascii) :
  Std.back P = "/" ->
  ((length P - 1 =? length h + length p)
   && Std.equal h P && Std.equal p (skipn (length h) P) = true
   <-> h ++ p = removelast P).
Proof.
  intros Hback. pose proof (back_slash_nonempty P Hback) as Hne.
  pose proof (back_decompose P Hne) as HP. rewrite Hback in HP.
  rewrite <- andb_assoc, andb_true_iff, equal_host_path, Nat.eqb_eq. split.
  - intros [Hlen [t Ht]].
    rewrite Ht in Hlen. rewrite !length_app in Hlen.
    destruct t as [|c [|c' t']]; simpl in Hlen; try lia.
    + exfalso. apply Hne. apply length_zero_iff_nil.
      rewrite Ht, !length_app. simpl. lia.
    + rewrite Ht. now rewrite removelast_last.
  - intros Heq. rewrite <- Heq in HP. split.
    + rewrite HP at 1. rewrite !length_app. simpl. lia.
    + exists ["/"]. exact HP.
Qed.

(** When host has no '/', a pattern ending in '/' that is a prefix of
    host followed by path is at least as long as host. *)
Lemma prefix_longer_than_host (P h p : list ascii) :
  Std.back P = "/" -> ~ contains h "/" -> has_prefix (h ++ p) P ->
  length h <= length P.
Proof.
  intros Hback Hno [u Hu].
  destruct (Nat.le_gt_cases (length h) (length P)) as [Hle | Hgt]; [exact Hle|].
  exfalso. apply Hno.
  apply app_eq_app in Hu. destruct Hu as [l [[Hh _] | [HP _]]].
  - subst h. apply in_or_app. left. rewrite <- Hback.
    apply back_in. now apply back_slash_nonempty.
  - subst P. rewrite length_app in Hgt. lia.
Qed.

Lemma path_match_exact (P h p : list ascii) :
  Std.back P <> "/" -> (path_match P h p = true <-> h ++ p = P).
Proof.
  intros Hback. unfold path_match.
  apply Ascii.eqb_neq in Hback. rewrite Hback. simpl negb. cbv iota.
  apply exact_branch.
Qed.

Lemma path_match_dir (P h p : list ascii) :
  Std.back P = "/" ->
  (path_match P h p = true
   <-> (length h <= length P /\ has_prefix (h ++ p) P)
       \/ h ++ p = removelast P).
Proof.
  intros Hback. unfold path_match.
  rewrite Hback, Ascii.eqb_refl. simpl negb. cbv iota.
  destruct ((length h <=? length P) && Std.equal h P
            && Util.startsWith p (skipn (length h) P)) eqn:E.
  - apply prefix_branch in E. split; [intros _; now left | reflexivity].
  - rewrite (slashless_branch P h p Hback). split; [intros H; now right|].
    intros [H | H]; [|exact H].
    apply prefix_branch in H. congruence.
Qed.

(** C1 (as amended).  For a non-empty pattern [P]: when [P] does not end
    in '/', [path_match P h p] holds iff [h ++ p] equals [P]; when [P] ends
    in '/', it holds iff [h] is no longer than [P] and [h ++ p] starts
    with [P], or [h ++ p] is [P] without its last '/'.  For a host without
    '/' (the only hosts the router passes) the length condition is
    implied, and the second case reads as the specification has it. *)
Theorem path_match_spec (P h p : list ascii) :
  P <> [] ->
  (Std.back P <> "/" -> (path_match P h p = true <-> h ++ p = P))
  /\ (Std.back P = "/" ->
      (path_match P h p = true
       <-> (length h <= length P /\ has_prefix (h ++ p) P)
           \/ h ++ p = removelast P))
  /\ (Std.back P = "/" -> ~ contains h "/" ->
      (path_match P h p = true
       <-> has_prefix (h ++ p) P \/ h ++ p = removelast P)).
Proof.
  intros _. split; [|split].
  - apply path_match_exact.
  - apply path_match_dir.
  - intros Hback Hno. rewrite (path_match_dir P h p Hback). split.
    + intros [[_ H] | H]; [now left | now right].
    + intros [H | H]; [left | now right].
      split; [|exact H]. now apply (prefix_longer_than_host P h p).
Qed.

(** The pattern "a/" is a prefix of the host "a/b" followed by the empty
    path, and [path_match] rejects it: the host is longer than the
    pattern. *)
Lemma path_match_long_host :
  str "a/" <> []
  /\ Std.back (str "a/") = "/"
  /\ has_prefix (str "a/b" ++ []) (str "a/")
  /\ path_match (str "a/") (str "a/b") [] = false.
Proof.
  split; [discriminate|]. split; [reflexivity|].
  split; [now exists (str "b") | reflexivity].
Qed.

(** The pattern "example.com/dir/" at the request host "example.com" and
    path "/dir". *)
Lemma path_match_spec_dir :
  str "example.com/dir/" <> []
  /\ ~ contains (str "example.com") "/"
  /\ path_match (str "example.com/dir/") (str "example.com") (str "/dir")
     = true.
Proof.
  assert (Hne : str "example.com/dir/" <> []) by discriminate.
  assert (Hno : ~ contains (str "example.com") "/").
  { unfold contains. simpl. intros H.
    repeat (destruct H as [H | H]; [discriminate H|]). exact H. }
  split; [exact Hne|]. split; [exact Hno|].
  destruct (path_match_spec (str "example.com/dir/") (str "example.com")
              (str "/dir") Hne) as [_ [_ H]].
  apply (H eq_refl Hno). right. reflexivity.
Defined.

(** ** [match] *)

Section Match.

Variables host path : list ascii.

Lemma nth_error_snoc (A : Type) (l : list A) (x y : A) (j : nat) :
  nth_error (l ++ [x]) j = Some y ->
  (j < length l /\ nth_error l j = Some y) \/ (j = length l /\ y = x).
Proof.
  intros H. destruct (Nat.lt_ge_cases j (length l)) as [Hlt | Hge].
  - left. split; [exact Hlt|]. now rewrite nth_error_app1 in H.
  - right. rewrite nth_error_app2 in H by exact Hge.
    destruct (j - length l) as [|k] eqn:E; simpl in H.
    + split; [lia | congruence].
    + destruct k; discriminate.
Qed.

Lemma no_match_snoc scanned g :
  no_match host path scanned -> path_match (pattern g) host path = false ->
  no_match host path (scanned ++ [g]).
Proof.
  intros Hno Hg j g' Hj.
  apply nth_error_snoc in Hj. destruct Hj as [[_ Hj] | [_ ->]]; eauto.
Qed.

(** A group that does not match leaves the record as it is. *)
Lemma loop_inv_skip scanned g res best :
  loop_inv host path scanned res best ->
  path_match (pattern g) host path = false ->
  loop_inv host path (scanned ++ [g]) res best.
Proof.
  intros [[-> Hno] | [r [-> [g0 [Hr [Hb [Hm Hbest]]]]]]] Hg.
  - left. split; [reflexivity | now apply no_match_snoc].
  - right. exists r. split; [reflexivity|]. exists g0.
    repeat split; try assumption.
    + rewrite nth_error_app1; [exact Hr|].
      apply nth_error_Some. congruence.
    + apply nth_error_snoc in H. destruct H as [[_ H] | [_ ->]].
      * now apply (Hbest j g').
      * congruence.
    + apply nth_error_snoc in H. destruct H as [[_ H] | [_ ->]].
      * now apply (Hbest j g').
      * congruence.
Qed.

(** A matching group is recorded when it is the first match or strictly
    longer than the recorded one. *)
Lemma loop_inv_take scanned g res best :
  loop_inv host path scanned res best ->
  path_match (pattern g) host path = true ->
  (res =? -1)%Z || (best <? length (pattern g)) = true ->
  loop_inv host path (scanned ++ [g])
    (Z.of_nat (length scanned)) (length (pattern g)).
Proof.
  intros Hinv Hg Hcond. right. exists (length scanned).
  split; [reflexivity|]. exists g.
  split; [now rewrite nth_error_app2, Nat.sub_diag by lia|].
  split; [reflexivity|]. split; [exact Hg|].
  intros j g' Hj Hm.
  apply nth_error_snoc in Hj. destruct Hj as [[Hlt Hj] | [-> ->]]; [|lia].
  destruct Hinv as [[-> Hno] | [r [-> [g0 [Hr [Hb [Hm0 Hbest]]]]]]].
  - rewrite (Hno j g' Hj) in Hm. discriminate.
  - apply orb_true_iff in Hcond. destruct Hcond as [Hc | Hc].
    + apply Z.eqb_eq in Hc. lia.
    + apply Nat.ltb_lt in Hc.
      destruct (Hbest j g' Hj Hm) as [Hle _]. lia.
Qed.

(** A matching group that is not longer than the recorded one is passed
    over, also when it is as long. *)
Lemma loop_inv_keep scanned g res best :
  loop_inv host path scanned res best ->
  path_match (pattern g) host path = true ->
  (res =? -1)%Z || (best <? length (pattern g)) = false ->
  loop_inv host path (scanned ++ [g]) res best.
Proof.
  intros Hinv Hg Hcond.
  apply orb_false_iff in Hcond. destruct Hcond as [Hres Hlen].
  apply Z.eqb_neq in Hres. apply Nat.ltb_ge in Hlen.
  destruct Hinv as [[-> _] | [r [-> [g0 [Hr [Hb [Hm0 Hbest]]]]]]];
    [congruence|].
  right. exists r. split; [reflexivity|]. exists g0.
  assert (Hrlt : r < length scanned) by (apply nth_error_Some; congruence).
  split; [now rewrite nth_error_app1|].
  split; [exact Hb|]. split; [exact Hm0|].
  intros j g' Hj Hm.
  apply nth_error_snoc in Hj. destruct Hj as [[_ Hj] | [-> ->]].
  - now apply (Hbest j g').
  - lia.
Qed.

Lemma match_loop_inv rest : forall scanned res best,
  loop_inv host path scanned res best ->
  exists best',
    loop_inv host path (scanned ++ rest)
      (match_loop host path rest (length scanned) res best) best'.
Proof.
  induction rest as [|g rest IH]; intros scanned res best Hinv; simpl.
  - exists best. now rewrite app_nil_r.
  - replace (scanned ++ g :: rest) with ((scanned ++ [g]) ++ rest)
      by now rewrite <- app_assoc.
    replace (S (length scanned)) with (length (scanned ++ [g]))
      by (rewrite length_app; simpl; lia).
    destruct (path_match (pattern g) host path) eqn:Hg; simpl negb; cbv iota.
    + destruct ((res =? -1)%Z || (best <? length (pattern g))) eqn:Hcond.
      * apply IH. now apply loop_inv_take with (res := res) (best := best).
      * apply IH. now apply loop_inv_keep.
    + apply IH. now apply loop_inv_skip.
Qed.

Lemma match_cases (groups : list DownstreamAddrGroup) :
  (match_ host path groups = (-1)%Z /\ no_match host path groups)
  \/ (exists r, match_ host path groups = Z.of_nat r
                /\ best_match host path groups r).
Proof.
  destruct (match_loop_inv groups [] (-1)%Z 0) as [b Hb].
  - left. split; [reflexivity|]. intros [|j] g Hj; discriminate.
  - simpl in Hb. fold (match_ host path groups) in Hb.
    destruct Hb as [Hb | [r [Hr Hb]]]; [now left|].
    right. exists r. split; [exact Hr | now exists b].
Qed.

Lemma best_match_lt groups r :
  best_match host path groups r -> r < length groups.
Proof.
  intros [b [g [Hr _]]]. apply nth_error_Some. congruence.
Qed.

Lemma best_match_not_no_match groups r :
  best_match host path groups r -> ~ no_match host path groups.
Proof.
  intros [b [g [Hr [_ [Hm _]]]]] Hno. rewrite (Hno r g Hr) in Hm. discriminate.
Qed.

(** The longest, earliest matching group is unique. *)
Lemma best_match_unique groups r r' :
  best_match host path groups r -> best_match host path groups r' -> r = r'.
Proof.
  intros [b [g [Hr [Hb [Hm Hbest]]]]] [b' [g' [Hr' [Hb' [Hm' Hbest']]]]].
  destruct (Hbest r' g' Hr' Hm') as [Hle Hfirst].
  destruct (Hbest' r g Hr Hm) as [Hle' Hfirst'].
  assert (Hlen : length (pattern g') = length (pattern g)) by lia.
  assert (r <= r') by (apply Hfirst; lia).
  assert (r' <= r) by (apply Hfirst'; lia).
  lia.
Qed.

Lemma match_none_iff groups :
  match_ host path groups = (-1)%Z <-> no_match host path groups.
Proof.
  destruct (match_cases groups) as [[H Hno] | [r [H Hb]]].
  - tauto.
  - split; [lia|]. intros Hno. now apply best_match_not_no_match in Hb.
Qed.

Lemma match_some_iff groups r :
  match_ host path groups = Z.of_nat r <-> best_match host path groups r.
Proof.
  destruct (match_cases groups) as [[H Hno] | [r0 [H Hb]]].
  - split; [lia|]. intros Hb. now apply best_match_not_no_match in Hb.
  - split.
    + intros H'. assert (r = r0) by lia. now subst.
    + intros Hb'. rewrite H. f_equal. now apply (best_match_unique groups).
Qed.

(** [match] answers [-1] or an index into the table. *)
Lemma match_range groups :
  match_ host path groups = (-1)%Z
  \/ (0 <= match_ host path groups < Z.of_nat (length groups))%Z.
Proof.
  destruct (match_cases groups) as [[H _] | [r [H Hb]]]; [now left|].
  right. apply best_match_lt in Hb. lia.
Qed.

(** C2.  [match] returns [-1] exactly when no group of the table matches;
    otherwise it returns the index [r] of a matching group whose pattern
    is at least as long as that of every matching group and which comes
    first among the matching groups with a pattern of that length, and
    that index is the only one it can return. *)
Theorem match_longest_first (groups : list DownstreamAddrGroup) :
  ((match_ host path groups = (-1)%Z /\ no_match host path groups)
   \/ (exists r, match_ host path groups = Z.of_nat r
                 /\ best_match host path groups r))
  /\ (forall r, best_match host path groups r ->
        match_ host path groups = Z.of_nat r).
Proof.
  split; [apply match_cases|].
  intros r Hb. now apply match_some_iff.
Qed.

End Match.

(** ** [std::find] *)

Lemma find_le (s : list ascii) (c : ascii) : Std.find s c <= length s.
Proof.
  induction s as [|x t IH]; simpl; [lia|].
  destruct (Ascii.eqb x c); lia.
Qed.

Lemma find_lt_iff (s : list ascii) (c : ascii) :
  Std.find s c < length s <-> contains s c.
Proof.
  unfold contains. induction s as [|x t IH]; simpl.
  - split; [lia | tauto].
  - destruct (Ascii.eqb x c) eqn:E.
    + apply Ascii.eqb_eq in E. split; [now left | lia].
    + apply Ascii.eqb_neq in E. rewrite <- IH. split.
      * intros H. right. lia.
      * intros [H | H]; [congruence | lia].
Qed.

Lemma find_none (s : list ascii) (c : ascii) :
  ~ contains s c -> Std.find s c = length s.
Proof.
  intros H. rewrite <- find_lt_iff in H. pose proof (find_le s c). lia.
Qed.

Lemma find_app (a s : list ascii) (c : ascii) :
  ~ contains a c -> Std.find (a ++ s) c = length a + Std.find s c.
Proof.
  unfold contains. induction a as [|x t IH]; simpl; intros H; [reflexivity|].
  destruct (Ascii.eqb x c) eqn:E.
  - apply Ascii.eqb_eq in E. tauto.
  - rewrite IH; tauto.
Qed.

Lemma find_hit (a b : list ascii) (c : ascii) :
  ~ contains a c -> Std.find (a ++ c :: b) c = length a.
Proof.
  intros H. rewrite find_app by exact H. simpl.
  rewrite Ascii.eqb_refl. lia.
Qed.

Lemma find_miss (a b : list ascii) (x c : ascii) :
  ~ contains a c -> x <> c ->
  Std.find (a ++ x :: b) c = length a + 1 + Std.find b c.
Proof.
  intros H Hx. rewrite find_app by exact H. simpl.
  apply Ascii.eqb_neq in Hx. rewrite Hx. lia.
Qed.

Lemma existsb_find (s : list ascii) (c : ascii) :
  existsb (Ascii.eqb c) s = negb (Std.find s c =? length s).
Proof.
  induction s as [|x t IH]; simpl; [reflexivity|].
  rewrite (Ascii.eqb_sym c x). destruct (Ascii.eqb x c); simpl; [reflexivity|].
  exact IH.
Qed.

Lemma firstn_app_exact (A : Type) (a b : list A) :
  firstn (length a) (a ++ b) = a.
Proof.
  rewrite firstn_app, Nat.sub_diag, firstn_all. simpl. apply app_nil_r.
Qed.

(** ** The router in two halves *)

Lemma route_via_host (hostport raw_path : list ascii)
    (groups : list DownstreamAddrGroup) (catch_all : nat) :
  match_downstream_addr_group hostport raw_path groups catch_all =
  match request_host hostport with
  | None => catch_all
  | Some h =>
      match_downstream_addr_group_host h (path_span raw_path) groups catch_all
  end.
Proof.
  unfold match_downstream_addr_group, request_host.
  rewrite existsb_find.
  destruct (negb (Std.find hostport "/" =? length hostport)); [reflexivity|].
  destruct hostport as [|c t]; [reflexivity|].
  destruct (extract_host (c :: t)); reflexivity.
Qed.

Lemma host_tiers_abs (h p : list ascii) (groups : list DownstreamAddrGroup)
    (catch_all : nat) :
  abs_path p ->
  match_downstream_addr_group_host h p groups catch_all =
  found_or (match_ h p groups) (found_or (match_ [] p groups) catch_all).
Proof.
  intros [t ->]. unfold match_downstream_addr_group_host, found_or. simpl.
  destruct (match_ h ("/" :: t) groups =? -1)%Z; simpl; [|reflexivity].
  destruct (match_ [] ("/" :: t) groups =? -1)%Z; reflexivity.
Qed.

Lemma host_tiers_degenerate (h p : list ascii)
    (groups : list DownstreamAddrGroup) (catch_all : nat) :
  ~ abs_path p ->
  match_downstream_addr_group_host h p groups catch_all =
  found_or (match_ h (str "/") groups) catch_all.
Proof.
  intros Hp. unfold match_downstream_addr_group_host, found_or.
  destruct p as [|c t]; simpl.
  - destruct (_ =? -1)%Z; reflexivity.
  - destruct (Ascii.eqb c "/") eqn:E.
    + apply Ascii.eqb_eq in E. subst c. exfalso. apply Hp. now exists t.
    + simpl. destruct (_ =? -1)%Z; reflexivity.
Qed.

Lemma found_or_range (group : Z) (otherwise n : nat) :
  group = (-1)%Z \/ (0 <= group < Z.of_nat n)%Z ->
  found_or group otherwise = otherwise \/ found_or group otherwise < n.
Proof.
  unfold found_or. intros [-> | H]; [now left|].
  destruct (group =? -1)%Z; [now left | right; lia].
Qed.

Lemma degenerate_not_abs (p : list ascii) : degenerate_path p <-> ~ abs_path p.
Proof.
  split.
  - intros [-> | [c [t [-> Hc]]]] [t' H]; [discriminate | congruence].
  - intros H. destruct p as [|c t]; [now left|]. right. exists c, t.
    split; [reflexivity|]. intros ->. apply H. now exists t.
Qed.

Lemma found_or_none (otherwise : nat) : found_or (-1)%Z otherwise = otherwise.
Proof. reflexivity. Qed.

Lemma found_or_some (i otherwise : nat) : found_or (Z.of_nat i) otherwise = i.
Proof.
  unfold found_or. destruct (Z.of_nat i =? -1)%Z eqn:E; [lia|].
  apply Nat2Z.id.
Qed.

(** ** The tiers of the router *)

(** C3.  When the router reaches the matching stage with host [h] and the
    path span starts with '/', its answer is the group [match] finds for
    [h] and the path; failing that, the group [match] finds for the empty
    host and the path; failing that, [catch_all].  The answer is
    [catch_all] or an index into the table. *)
Theorem route_abs_path (hostport raw_path h : list ascii)
    (groups : list DownstreamAddrGroup) (catch_all : nat) :
  request_host hostport = Some h ->
  abs_path (path_span raw_path) ->
  match_downstream_addr_group hostport raw_path groups catch_all
  = found_or (match_ h (path_span raw_path) groups)
      (found_or (match_ [] (path_span raw_path) groups) catch_all)
  /\ (forall i, best_match h (path_span raw_path) groups i ->
        match_downstream_addr_group hostport raw_path groups catch_all = i)
  /\ (no_match h (path_span raw_path) groups ->
      forall i, best_match [] (path_span raw_path) groups i ->
        match_downstream_addr_group hostport raw_path groups catch_all = i)
  /\ (no_match h (path_span raw_path) groups ->
      no_match [] (path_span raw_path) groups ->
      match_downstream_addr_group hostport raw_path groups catch_all
      = catch_all)
  /\ (match_downstream_addr_group hostport raw_path groups catch_all = catch_all
      \/ match_downstream_addr_group hostport raw_path groups catch_all
         < length groups).
Proof.
  intros Hh Hp. rewrite route_via_host, Hh, (host_tiers_abs _ _ _ _ Hp).
  split; [reflexivity|]. split; [|split; [|split]].
  - intros i Hi. apply match_some_iff in Hi. rewrite Hi. apply found_or_some.
  - intros Hno i Hi. apply match_none_iff in Hno. apply match_some_iff in Hi.
    rewrite Hno, Hi, found_or_none. apply found_or_some.
  - intros Hno Hno'. apply match_none_iff in Hno, Hno'.
    now rewrite Hno, Hno', !found_or_none.
  - destruct (found_or_range (match_ h (path_span raw_path) groups)
                (found_or (match_ [] (path_span raw_path) groups) catch_all)
                (length groups) (match_range _ _ _)) as [H | H].
    + rewrite H. apply found_or_range, match_range.
    + now right.
Qed.

(** C4.  When the path span is empty or does not start with '/', the
    answer is the group [match] finds for the request host and the path
    "/", or [catch_all]: neither the path itself nor the empty host takes
    part, so any two such paths get the same answer. *)
Theorem route_degenerate_path (hostport raw_path h : list ascii)
    (groups : list DownstreamAddrGroup) (catch_all : nat) :
  request_host hostport = Some h ->
  degenerate_path (path_span raw_path) ->
  match_downstream_addr_group hostport raw_path groups catch_all
  = found_or (match_ h (str "/") groups) catch_all
  /\ (forall i, best_match h (str "/") groups i ->
        match_downstream_addr_group hostport raw_path groups catch_all = i)
  /\ (no_match h (str "/") groups ->
      match_downstream_addr_group hostport raw_path groups catch_all
      = catch_all)
  /\ (forall raw_path', degenerate_path (path_span raw_path') ->
        match_downstream_addr_group hostport raw_path' groups catch_all
        = match_downstream_addr_group hostport raw_path groups catch_all).
Proof.
  intros Hh Hp. apply degenerate_not_abs in Hp.
  rewrite route_via_host, Hh, (host_tiers_degenerate _ _ _ _ Hp).
  split; [reflexivity|]. split; [|split].
  - intros i Hi. apply match_some_iff in Hi. rewrite Hi. apply found_or_some.
  - intros Hno. apply match_none_iff in Hno. now rewrite Hno.
  - intros raw' Hp'. apply degenerate_not_abs in Hp'.
    now rewrite route_via_host, Hh, (host_tiers_degenerate _ _ _ _ Hp').
Qed.

(** ** The path span *)

Lemma path_span_cut (a b : list ascii) (c : ascii) :
  ~ contains a "?" -> ~ contains a "#" -> c = "?" \/ c = "#" ->
  path_span (a ++ c :: b) = a.
Proof.
  intros Hq Hf Hc. unfold path_span.
  destruct Hc as [-> | ->].
  - rewrite (find_miss a b "?" "#" Hf) by discriminate.
    replace (length a + 1 + Std.find b "#")
      with (length a + S (Std.find b "#")) by lia.
    rewrite firstn_app_2. simpl firstn.
    rewrite find_hit by exact Hq. apply firstn_app_exact.
  - rewrite find_hit by exact Hf. rewrite firstn_app_exact.
    rewrite find_none by exact Hq. apply firstn_app_exact.
Qed.

Lemma path_span_whole (raw_path : list ascii) :
  ~ contains raw_path "?" -> ~ contains raw_path "#" ->
  path_span raw_path = raw_path.
Proof.
  intros Hq Hf. unfold path_span.
  rewrite (find_none _ _ Hf), firstn_all, (find_none _ _ Hq).
  apply firstn_all.
Qed.

(** C5.  The path span of [raw_path] ends at the first '?' that comes
    before any '#'; with no such '?', at the first '#' (a '?' behind it
    does not count); with neither character, it is all of [raw_path]. *)
Theorem path_span_spec (raw_path : list ascii) :
  (forall a b, raw_path = a ++ "?" :: b ->
     ~ contains a "?" -> ~ contains a "#" -> path_span raw_path = a)
  /\ (forall a b, raw_path = a ++ "#" :: b ->
       ~ contains a "?" -> ~ contains a "#" -> path_span raw_path = a)
  /\ (~ contains raw_path "?" -> ~ contains raw_path "#" ->
      path_span raw_path = raw_path).
Proof.
  split; [|split].
  - intros a b -> Hq Hf. apply path_span_cut; auto.
  - intros a b -> Hq Hf. apply path_span_cut; auto.
  - apply path_span_whole.
Qed.

(** ** Rejected and empty authorities *)

(** C6.  A [hostport] with a '/' in it is answered with [catch_all],
    whatever the path and the table. *)
Theorem route_slash_in_hostport (hostport raw_path : list ascii)
    (groups : list DownstreamAddrGroup) (catch_all : nat) :
  contains hostport "/" ->
  match_downstream_addr_group hostport raw_path groups catch_all = catch_all.
Proof.
  intros H. unfold match_downstream_addr_group.
  apply find_lt_iff in H.
  destruct (Std.find hostport "/" =? length hostport) eqn:E; [|reflexivity].
  apply Nat.eqb_eq in E. lia.
Qed.

(** C10.  An empty [hostport] is not rejected: the router runs the tiers
    of [match_downstream_addr_group_host] with the empty host, so the
    answer is the group [match] finds for the empty host and the path
    (or "/" for a degenerate path), and [catch_all] when it finds none. *)
Theorem route_empty_hostport (raw_path : list ascii)
    (groups : list DownstreamAddrGroup) (catch_all : nat) :
  match_downstream_addr_group [] raw_path groups catch_all
  = match_downstream_addr_group_host [] (path_span raw_path) groups catch_all
  /\ (abs_path (path_span raw_path) ->
      match_downstream_addr_group [] raw_path groups catch_all
      = found_or (match_ [] (path_span raw_path) groups) catch_all
      /\ (forall i, best_match [] (path_span raw_path) groups i ->
            match_downstream_addr_group [] raw_path groups catch_all = i)
      /\ (no_match [] (path_span raw_path) groups ->
            match_downstream_addr_group [] raw_path groups catch_all
            = catch_all))
  /\ (degenerate_path (path_span raw_path) ->
      match_downstream_addr_group [] raw_path groups catch_all
      = found_or (match_ [] (str "/") groups) catch_all
      /\ (forall i, best_match [] (str "/") groups i ->
            match_downstream_addr_group [] raw_path groups catch_all = i)
      /\ (no_match [] (str "/") groups ->
            match_downstream_addr_group [] raw_path groups catch_all
            = catch_all)).
Proof.
  split; [reflexivity|]. split.
  - intros Hp.
    assert (E : match_downstream_addr_group [] raw_path groups catch_all
                = found_or (match_ [] (path_span raw_path) groups) catch_all).
    { change (match_downstream_addr_group [] raw_path groups catch_all)
        with (match_downstream_addr_group_host [] (path_span raw_path)
                groups catch_all).
      rewrite (host_tiers_abs _ _ _ _ Hp). unfold found_or.
      destruct (_ =? -1)%Z; reflexivity. }
    rewrite E. split; [reflexivity|]. split.
    + intros i Hi. apply match_some_iff in Hi. rewrite Hi. apply found_or_some.
    + intros Hno. apply match_none_iff in Hno. now rewrite Hno.
  - intros Hp. apply degenerate_not_abs in Hp.
    change (match_downstream_addr_group [] raw_path groups catch_all)
      with (match_downstream_addr_group_host [] (path_span raw_path)
              groups catch_all).
    rewrite (host_tiers_degenerate _ _ _ _ Hp).
    split; [reflexivity|]. split.
    + intros i Hi. apply match_some_iff in Hi. rewrite Hi. apply found_or_some.
    + intros Hno. apply match_none_iff in Hno. now rewrite Hno.
Qed.

(** ** Host extraction *)

Lemma extract_bracket_open (t : list ascii) :
  ~ contains t "]" -> extract_host ("[" :: t) = None.
Proof.
  intros H. unfold extract_host. simpl.
  rewrite (find_none _ _ H), Nat.eqb_refl. reflexivity.
Qed.

Lemma find_bracket (a rest : list ascii) :
  ~ contains a "]" -> Std.find ("[" :: a ++ "]" :: rest) "]" = S (length a).
Proof. intros H. simpl. now rewrite find_hit. Qed.

Lemma extract_bracket_junk (a b : list ascii) (c : ascii) :
  ~ contains a "]" -> c <> ":" ->
  extract_host ("[" :: a ++ "]" :: c :: b) = None.
Proof.
  intros H Hc. unfold extract_host.
  change (nth 0 ("[" :: a ++ "]" :: c :: b) zero) with "[".
  rewrite Ascii.eqb_refl. cbv zeta. rewrite (find_bracket _ _ H).
  assert (Hlen : length ("[" :: a ++ "]" :: c :: b)
                 = S (length a) + 2 + length b).
  { simpl. rewrite length_app. simpl. lia. }
  rewrite Hlen.
  destruct (S (length a) =? S (length a) + 2 + length b) eqn:E1;
    [apply Nat.eqb_eq in E1; lia|].
  assert (E2 : (S (length a) + 1 <? S (length a) + 2 + length b) = true)
    by (apply Nat.ltb_lt; lia).
  rewrite E2.
  assert (E3 : nth (S (length a) + 1) ("[" :: a ++ "]" :: c :: b) zero = c).
  { replace (S (length a) + 1) with (S (length a + 1)) by lia.
    simpl nth. rewrite app_nth2 by lia.
    replace (length a + 1 - length a) with 1 by lia. reflexivity. }
  rewrite E3. apply Ascii.eqb_neq in Hc. rewrite Hc. reflexivity.
Qed.

Lemma extract_bracket_ok (a rest : list ascii) :
  ~ contains a "]" -> rest = [] \/ (exists b, rest = ":" :: b) ->
  extract_host ("[" :: a ++ "]" :: rest) = Some ("[" :: a ++ ["]"]).
Proof.
  intros H Hrest. unfold extract_host.
  change (nth 0 ("[" :: a ++ "]" :: rest) zero) with "[".
  rewrite Ascii.eqb_refl. cbv zeta. rewrite (find_bracket _ _ H).
  assert (Hlen : length ("[" :: a ++ "]" :: rest)
                 = S (length a) + 1 + length rest).
  { simpl. rewrite length_app. simpl. lia. }
  rewrite Hlen.
  destruct (S (length a) =? S (length a) + 1 + length rest) eqn:E1;
    [apply Nat.eqb_eq in E1; lia|].
  assert (Hcut : firstn (S (length a) + 1) ("[" :: a ++ "]" :: rest)
                 = "[" :: a ++ ["]"]).
  { replace (S (length a) + 1) with (length ("[" :: a ++ ["]"]))
      by (simpl; rewrite length_app; simpl; lia).
    replace ("[" :: a ++ "]" :: rest) with (("[" :: a ++ ["]"]) ++ rest)
      by (simpl; now rewrite <- app_assoc).
    apply firstn_app_exact. }
  rewrite Hcut.
  destruct Hrest as [-> | [b ->]].
  - assert (E2 : (S (length a) + 1 <? S (length a) + 1 + length (@nil ascii))
                 = false)
      by (apply Nat.ltb_ge; simpl; lia).
    rewrite E2. reflexivity.
  - assert (E3 : nth (S (length a) + 1) ("[" :: a ++ "]" :: ":" :: b) zero
                 = ":").
    { replace (S (length a) + 1) with (S (length a + 1)) by lia.
      simpl nth. rewrite app_nth2 by lia.
      replace (length a + 1 - length a) with 1 by lia. reflexivity. }
    rewrite E3, Ascii.eqb_refl, andb_false_r. reflexivity.
Qed.

Lemma extract_colon_first (t : list ascii) : extract_host (":" :: t) = None.
Proof. reflexivity. Qed.

Lemma extract_plain (c : ascii) (t a b : list ascii) :
  c <> "[" -> c <> ":" -> c :: t = a ++ ":" :: b -> ~ contains a ":" ->
  extract_host (c :: t) = Some a.
Proof.
  intros Hb Hc Heq Ha. unfold extract_host.
  change (nth 0 (c :: t) zero) with c.
  apply Ascii.eqb_neq in Hb. rewrite Hb. cbv zeta.
  rewrite Heq, (find_hit _ _ _ Ha), firstn_app_exact.
  destruct a as [|x a']; [simpl in Heq; congruence|]. reflexivity.
Qed.

Lemma extract_plain_whole (c : ascii) (t : list ascii) :
  c <> "[" -> c <> ":" -> ~ contains (c :: t) ":" ->
  extract_host (c :: t) = Some (c :: t).
Proof.
  intros Hb Hc Hno. unfold extract_host.
  change (nth 0 (c :: t) zero) with c.
  apply Ascii.eqb_neq in Hb. rewrite Hb. cbv zeta.
  rewrite (find_none _ _ Hno), firstn_all. reflexivity.
Qed.

Lemma route_rejected (c : ascii) (t raw_path : list ascii)
    (groups : list DownstreamAddrGroup) (catch_all : nat) :
  extract_host (c :: t) = None ->
  match_downstream_addr_group (c :: t) raw_path groups catch_all = catch_all.
Proof.
  intros H. unfold match_downstream_addr_group. rewrite H.
  destruct (negb _); reflexivity.
Qed.

Lemma route_extracted (c : ascii) (t raw_path x : list ascii)
    (groups : list DownstreamAddrGroup) (catch_all : nat) :
  extract_host (c :: t) = Some x -> ~ contains (c :: t) "/" ->
  request_host (c :: t) = Some (Util.inp_strlower x)
  /\ match_downstream_addr_group (c :: t) raw_path groups catch_all
     = match_downstream_addr_group_host (Util.inp_strlower x)
         (path_span raw_path) groups catch_all.
Proof.
  intros H Hno.
  assert (Hr : request_host (c :: t) = Some (Util.inp_strlower x)).
  { unfold request_host.
    rewrite existsb_find, (find_none _ _ Hno), Nat.eqb_refl.
    simpl negb. cbv iota. now rewrite H. }
  split; [exact Hr|]. now rewrite route_via_host, Hr.
Qed.

(** C7.  A [hostport] that opens with '[' is answered with [catch_all]
    when it has no ']' or when the character after the first ']' is not
    ':'; otherwise the host is the text up to and including that ']',
    lowercased.  A [hostport] that opens with ':' is answered with
    [catch_all]; any other non-empty [hostport] gives the lowercased text
    before its first ':', or all of it when it has no ':'.  The hosts so
    obtained are the ones the router matches with (a [hostport] with a
    '/' never gets this far), and "[::1]:8080" finds the group registered
    for the host "[::1]". *)
Theorem hostport_extraction :
  (forall (hostport raw_path : list ascii) (groups : list DownstreamAddrGroup)
          (catch_all : nat),
    (forall t, hostport = "[" :: t -> ~ contains t "]" ->
       extract_host hostport = None
       /\ match_downstream_addr_group hostport raw_path groups catch_all
          = catch_all)
    /\ (forall a c b, hostport = "[" :: a ++ "]" :: c :: b ->
         ~ contains a "]" -> c <> ":" ->
         extract_host hostport = None
         /\ match_downstream_addr_group hostport raw_path groups catch_all
            = catch_all)
    /\ (forall a rest, hostport = "[" :: a ++ "]" :: rest ->
         ~ contains a "]" -> rest = [] \/ (exists b, rest = ":" :: b) ->
         extract_host hostport = Some ("[" :: a ++ ["]"])
         /\ (~ contains hostport "/" ->
             request_host hostport
             = Some (Util.inp_strlower ("[" :: a ++ ["]"]))
             /\ match_downstream_addr_group hostport raw_path groups catch_all
                = match_downstream_addr_group_host
                    (Util.inp_strlower ("[" :: a ++ ["]"]))
                    (path_span raw_path) groups catch_all))
    /\ (forall t, hostport = ":" :: t ->
         extract_host hostport = None
         /\ match_downstream_addr_group hostport raw_path groups catch_all
            = catch_all)
    /\ (forall c t a b, hostport = c :: t -> c <> "[" -> c <> ":" ->
         hostport = a ++ ":" :: b -> ~ contains a ":" ->
         extract_host hostport = Some a
         /\ (~ contains hostport "/" ->
             request_host hostport = Some (Util.inp_strlower a)
             /\ match_downstream_addr_group hostport raw_path groups catch_all
                = match_downstream_addr_group_host (Util.inp_strlower a)
                    (path_span raw_path) groups catch_all))
    /\ (forall c t, hostport = c :: t -> c <> "[" -> c <> ":" ->
         ~ contains hostport ":" ->
         extract_host hostport = Some hostport
         /\ (~ contains hostport "/" ->
             request_host hostport = Some (Util.inp_strlower hostport)
             /\ match_downstream_addr_group hostport raw_path groups catch_all
                = match_downstream_addr_group_host (Util.inp_strlower hostport)
                    (path_span raw_path) groups catch_all)))
  /\ request_host (str "[::1]:8080") = Some (str "[::1]")
  /\ match_downstream_addr_group (str "[::1]:8080") (str "/index.html")
       [group_of "example.com/"; group_of "[::1]/"] 0 = 1.
Proof.
  split; [|split; reflexivity].
  intros hostport raw_path groups catch_all.
  split; [|split; [|split; [|split; [|split]]]].
  - intros t -> H. pose proof (extract_bracket_open t H) as E.
    split; [exact E | now apply route_rejected].
  - intros a c b -> H Hc. pose proof (extract_bracket_junk a b c H Hc) as E.
    split; [exact E | now apply route_rejected].
  - intros a rest -> H Hrest.
    pose proof (extract_bracket_ok a rest H Hrest) as E.
    split; [exact E | now apply route_extracted].
  - intros t ->. split; [reflexivity | now apply route_rejected].
  - intros c t a b -> Hb Hc Heq Ha.
    pose proof (extract_plain c t a b Hb Hc Heq Ha) as E.
    split; [exact E | now apply route_extracted].
  - intros c t -> Hb Hc Hno.
    pose proof (extract_plain_whole c t Hb Hc Hno) as E.
    split; [exact E | now apply route_extracted].
Qed.

(** ** Lowercasing and [strchr] *)

Lemma lowcase_idem (c : ascii) : Util.lowcase (Util.lowcase c) = Util.lowcase c.
Proof. destruct c as [[] [] [] [] [] [] [] []]; reflexivity. Qed.

Lemma lowcase_slash (c : ascii) : Util.lowcase c = "/" -> c = "/".
Proof. destruct c as [[] [] [] [] [] [] [] []]; vm_compute; congruence. Qed.

Lemma inp_strlower_idem (s : list ascii) :
  Util.inp_strlower (Util.inp_strlower s) = Util.inp_strlower s.
Proof.
  unfold Util.inp_strlower. rewrite map_map.
  apply map_ext. apply lowcase_idem.
Qed.

Lemma inp_strlower_length (s : list ascii) :
  length (Util.inp_strlower s) = length s.
Proof. apply length_map. Qed.

Lemma inp_strlower_no_slash (s : list ascii) :
  ~ contains s "/" -> ~ contains (Util.inp_strlower s) "/".
Proof.
  unfold contains, Util.inp_strlower. intros H Hin.
  apply in_map_iff in Hin. destruct Hin as [c [Hc Hin]].
  apply lowcase_slash in Hc. now subst c.
Qed.

Lemma strchr_none (s : list ascii) (c : ascii) :
  ~ contains s c -> Std.strchr s c = None.
Proof.
  intros H. unfold Std.strchr. rewrite (find_none _ _ H).
  now rewrite Nat.ltb_irrefl.
Qed.

Lemma strchr_hit (a b : list ascii) (c : ascii) :
  ~ contains a c -> Std.strchr (a ++ c :: b) c = Some (length a).
Proof.
  intros H. unfold Std.strchr. rewrite (find_hit _ _ _ H).
  assert (E : (length a <? length (a ++ c :: b)) = true).
  { apply Nat.ltb_lt. rewrite length_app. simpl. lia. }
  now rewrite E.
Qed.

(** ** Pattern normalization *)

Section Normalize.

Variable normalize_path : list ascii -> list ascii.

Lemma normalize_bare (tok : list ascii) :
  ~ contains tok "/" ->
  Config.normalize_pattern normalize_path tok
  = Util.inp_strlower tok ++ str "/".
Proof.
  intros H. unfold Config.normalize_pattern.
  now rewrite (strchr_none _ _ H).
Qed.

Lemma normalize_split (a b : list ascii) :
  ~ contains a "/" ->
  Config.normalize_pattern normalize_path (a ++ "/" :: b)
  = Util.inp_strlower a ++ normalize_path ("/" :: b).
Proof.
  intros H. unfold Config.normalize_pattern.
  rewrite (strchr_hit _ _ _ H), firstn_app_exact.
  now rewrite skipn_app, skipn_all, Nat.sub_diag.
Qed.

(** A bare-host pattern matches every path under that host. *)
Lemma bare_host_matches (tok t : list ascii) :
  ~ contains tok "/" ->
  path_match (Config.normalize_pattern normalize_path tok)
    (Util.inp_strlower tok) ("/" :: t) = true.
Proof.
  intros H. rewrite (normalize_bare tok H).
  apply path_match_dir; [apply back_snoc|]. left. split.
  - rewrite length_app. lia.
  - exists t. now rewrite <- app_assoc.
Qed.

(** The host the router matches with is in lower case. *)
Lemma request_host_lower (hostport h : list ascii) :
  request_host hostport = Some h -> Util.inp_strlower h = h.
Proof.
  unfold request_host. destruct (existsb _ hostport); [discriminate|].
  destruct hostport as [|c t].
  - intros H. injection H as <-. reflexivity.
  - destruct (extract_host (c :: t)) as [x|]; [|discriminate].
    simpl. intros H. injection H as <-. apply inp_strlower_idem.
Qed.

(** C8.  A token without '/' becomes its lowercased text followed by "/"
    (the empty token becomes "/"); a token with '/' becomes the lowercased
    text before the first '/' followed by the normalized rest, which is
    not lowercased.  Patterns therefore depend on the host part only up
    to letter case, the host the router matches with is in lower case,
    and the pattern built from "Example.COM/a" matches the request host
    "example.com", however the request spells it. *)
Theorem normalize_pattern_spec :
  (forall tok, ~ contains tok "/" ->
     Config.normalize_pattern normalize_path tok
     = Util.inp_strlower tok ++ str "/")
  /\ Config.normalize_pattern normalize_path [] = str "/"
  /\ (forall a b, ~ contains a "/" ->
       Config.normalize_pattern normalize_path (a ++ "/" :: b)
       = Util.inp_strlower a ++ normalize_path ("/" :: b))
  /\ (forall a a' b, ~ contains a "/" -> ~ contains a' "/" ->
       Util.inp_strlower a = Util.inp_strlower a' ->
       Config.normalize_pattern normalize_path (a ++ "/" :: b)
       = Config.normalize_pattern normalize_path (a' ++ "/" :: b))
  /\ (forall hostport h, request_host hostport = Some h ->
       Util.inp_strlower h = h)
  /\ (forall tok t, ~ contains tok "/" ->
       path_match (Config.normalize_pattern normalize_path tok)
         (Util.inp_strlower tok) ("/" :: t) = true)
  /\ (normalize_path (str "/a") = str "/a" ->
      Config.normalize_pattern normalize_path (str "Example.COM/a")
      = str "example.com/a"
      /\ path_match
           (Config.normalize_pattern normalize_path (str "Example.COM/a"))
           (str "example.com") (str "/a") = true
      /\ request_host (str "EXAMPLE.com:443") = Some (str "example.com")
      /\ forall catch_all,
           match_downstream_addr_group (str "EXAMPLE.com:443") (str "/a?q=1")
             [mkDownstreamAddrGroup
                (Config.normalize_pattern normalize_path (str "Example.COM/a"))
                []]
             catch_all = 0).
Proof.
  split; [exact normalize_bare|].
  split; [reflexivity|].
  split; [exact normalize_split|].
  split.
  { intros a a' b Ha Ha' E. now rewrite !normalize_split, E. }
  split; [exact request_host_lower|].
  split; [exact bare_host_matches|].
  intros Hnp.
  assert (E : Config.normalize_pattern normalize_path (str "Example.COM/a")
              = str "example.com/a").
  { change (str "Example.COM/a") with (str "Example.COM" ++ "/" :: str "a").
    rewrite normalize_split.
    - change ("/" :: str "a") with (str "/a"). rewrite Hnp. reflexivity.
    - unfold contains. simpl. intros H.
      repeat (destruct H as [H | H]; [discriminate H|]). exact H. }
  rewrite E. repeat split.
Qed.

End Normalize.

(** ** Building the table: one pattern at a time *)

Lemma string_eq_iff (a b : list ascii) : Config.string_eq a b = true <-> a = b.
Proof.
  unfold Config.string_eq. rewrite andb_true_iff, Nat.eqb_eq, equal_has_prefix.
  split.
  - intros [Hlen [t ->]]. rewrite length_app in Hlen.
    assert (t = []) by (apply length_zero_iff_nil; lia).
    subst t. now rewrite app_nil_r.
  - intros ->. split; [reflexivity|]. exists []. now rewrite app_nil_r.
Qed.

Lemma push_existing_absent groups pat addr :
  ~ In pat (map pattern groups) ->
  Config.push_existing groups pat addr = (false, groups).
Proof.
  induction groups as [|g rest IH]; simpl; intros H; [reflexivity|].
  destruct (Config.string_eq (pattern g) pat) eqn:E.
  - apply string_eq_iff in E. tauto.
  - rewrite IH by tauto. reflexivity.
Qed.

Lemma push_existing_present groups pat addr :
  In pat (map pattern groups) ->
  exists pre g post,
    groups = pre ++ g :: post
    /\ pattern g = pat
    /\ ~ In pat (map pattern pre)
    /\ Config.push_existing groups pat addr
       = (true, pre ++ mkDownstreamAddrGroup pat (addrs g ++ [addr]) :: post).
Proof.
  induction groups as [|g rest IH]; simpl; intros H; [tauto|].
  destruct (Config.string_eq (pattern g) pat) eqn:E.
  - apply string_eq_iff in E. exists [], g, rest. simpl.
    rewrite E. repeat split; tauto.
  - assert (Hne : pattern g <> pat).
    { intros Heq. apply string_eq_iff in Heq. congruence. }
    destruct IH as [pre [g0 [post [Hrest [Hpat [Hpre Hpush]]]]]]; [tauto|].
    exists (g :: pre), g0, post. rewrite Hpush. simpl.
    repeat split; [now rewrite Hrest | exact Hpat | tauto].
Qed.

Lemma add_group_new groups pat addr :
  ~ In pat (map pattern groups) ->
  Config.add_group groups pat addr
  = groups ++ [mkDownstreamAddrGroup pat [addr]].
Proof.
  intros H. unfold Config.add_group.
  now rewrite (push_existing_absent groups pat addr H).
Qed.

Lemma add_group_merge groups pat addr :
  In pat (map pattern groups) ->
  exists pre g post,
    groups = pre ++ g :: post
    /\ pattern g = pat
    /\ ~ In pat (map pattern pre)
    /\ Config.add_group groups pat addr
       = pre ++ mkDownstreamAddrGroup pat (addrs g ++ [addr]) :: post.
Proof.
  intros H.
  destruct (push_existing_present groups pat addr H)
    as [pre [g [post [Hg [Hpat [Hpre Hpush]]]]]].
  exists pre, g, post. unfold Config.add_group. rewrite Hpush. tauto.
Qed.

Lemma in_patterns_dec (pat : list ascii) (groups : list DownstreamAddrGroup) :
  {In pat (map pattern groups)} + {~ In pat (map pattern groups)}.
Proof. apply in_dec. apply list_eq_dec. apply ascii_dec. Qed.

(** The patterns after one round: unchanged, or one more at the end. *)
Lemma add_group_patterns groups pat addr :
  map pattern (Config.add_group groups pat addr)
  = map pattern groups ++ (if in_patterns_dec pat groups then [] else [pat]).
Proof.
  destruct (in_patterns_dec pat groups) as [H | H].
  - destruct (add_group_merge groups pat addr H)
      as [pre [g [post [Hg [Hpat [_ ->]]]]]].
    rewrite app_nil_r, Hg, !map_app. simpl. now rewrite Hpat.
  - rewrite (add_group_new groups pat addr H), map_app. reflexivity.
Qed.

Lemma add_group_unique groups pat addr :
  unique_patterns groups -> unique_patterns (Config.add_group groups pat addr).
Proof.
  unfold unique_patterns. intros H. rewrite add_group_patterns.
  destruct (in_patterns_dec pat groups) as [Hin | Hout].
  - now rewrite app_nil_r.
  - apply NoDup_app; [exact H | constructor; [simpl; tauto | constructor] |].
    intros x Hx [<- | []]. tauto.
Qed.

Lemma extends_refl addr g : extends addr g g.
Proof. split; [reflexivity|]. exists []. now rewrite app_nil_r. Qed.

Lemma table_extends_refl addr groups : table_extends addr groups groups.
Proof. intros i g H. exists g. split; [exact H | apply extends_refl]. Qed.

Lemma table_extends_trans addr g1 g2 g3 :
  table_extends addr g1 g2 -> table_extends addr g2 g3 ->
  table_extends addr g1 g3.
Proof.
  intros H12 H23 i g Hi.
  destruct (H12 i g Hi) as [g' [Hi' [Hp [m [Ha Hm]]]]].
  destruct (H23 i g' Hi') as [g'' [Hi'' [Hp' [m' [Ha' Hm']]]]].
  exists g''. split; [exact Hi''|]. split; [congruence|].
  exists (m ++ m'). split.
  - now rewrite Ha', Ha, app_assoc.
  - apply Forall_app. tauto.
Qed.

Lemma add_group_extends groups pat addr :
  table_extends addr groups (Config.add_group groups pat addr).
Proof.
  destruct (in_patterns_dec pat groups) as [H | H].
  - destruct (add_group_merge groups pat addr H)
      as [pre [g0 [post [Hg [Hpat [_ ->]]]]]].
    subst groups. intros i g Hi.
    destruct (Nat.lt_trichotomy i (length pre)) as [Hlt | [Heq | Hgt]].
    + rewrite nth_error_app1 in Hi by exact Hlt.
      exists g. rewrite nth_error_app1 by exact Hlt.
      split; [exact Hi | apply extends_refl].
    + subst i. rewrite nth_error_app2, Nat.sub_diag in Hi by lia.
      simpl in Hi. injection Hi as <-.
      exists (mkDownstreamAddrGroup pat (addrs g0 ++ [addr])).
      rewrite nth_error_app2, Nat.sub_diag by lia.
      split; [reflexivity|]. split; [now simpl|].
      exists [addr]. split; [reflexivity | now repeat constructor].
    + rewrite nth_error_app2 in Hi by lia.
      exists g. rewrite nth_error_app2 by lia.
      destruct (i - length pre) as [|k] eqn:E; [lia|]. simpl in *.
      split; [exact Hi | apply extends_refl].
  - rewrite (add_group_new groups pat addr H). intros i g Hi.
    exists g. split; [|apply extends_refl].
    rewrite nth_error_app1; [exact Hi|]. apply nth_error_Some. congruence.
Qed.

(** After one round the pattern names a group and [addr] is the last
    address of its pool. *)
Lemma add_group_serves groups pat addr :
  exists g, In g (Config.add_group groups pat addr)
            /\ pattern g = pat /\ exists before, addrs g = before ++ [addr].
Proof.
  destruct (in_patterns_dec pat groups) as [H | H].
  - destruct (add_group_merge groups pat addr H)
      as [pre [g0 [post [Hg [Hpat [_ ->]]]]]].
    exists (mkDownstreamAddrGroup pat (addrs g0 ++ [addr])).
    split; [apply in_or_app; right; now left|].
    split; [reflexivity | now exists (addrs g0)].
  - rewrite (add_group_new groups pat addr H).
    exists (mkDownstreamAddrGroup pat [addr]).
    split; [apply in_or_app; right; now left|].
    split; [reflexivity | now exists []].
Qed.

(** ** Building the table: a whole directive *)

(** [parse_config_str_list] cuts at each delimiter [strchr] finds, as the
    loop of the source does. *)
Lemma parse_config_str_list_step (s : list ascii) (delim : ascii) :
  Config.parse_config_str_list s delim =
  match Std.strchr s delim with
  | None => [s]
  | Some p => firstn p s :: Config.parse_config_str_list (skipn (p + 1) s) delim
  end.
Proof.
  induction s as [|c t IH]; [reflexivity|].
  simpl Config.parse_config_str_list. unfold Std.strchr in *. simpl Std.find.
  destruct (Ascii.eqb c delim); [reflexivity|].
  rewrite IH. simpl length.
  change (S (Std.find t delim) <? S (length t))
    with (Std.find t delim <? length t).
  destruct (Std.find t delim <? length t); reflexivity.
Qed.

Lemma parse_config_str_list_single (s : list ascii) (delim : ascii) :
  ~ contains s delim -> Config.parse_config_str_list s delim = [s].
Proof.
  intros H. rewrite parse_config_str_list_step.
  now rewrite (strchr_none _ _ H).
Qed.

Lemma string_eq_refl (a : list ascii) : Config.string_eq a a = true.
Proof. now apply string_eq_iff. Qed.

Section Mapping_facts.

Variable normalize_path : list ascii -> list ascii.
Variable addr : DownstreamAddr.

Lemma fold_unique (toks : list (list ascii)) : forall groups,
  unique_patterns groups ->
  unique_patterns
    (fold_left (fun gs raw =>
       Config.add_group gs (Config.normalize_pattern normalize_path raw) addr)
       toks groups).
Proof.
  induction toks as [|raw toks IH]; intros groups H; simpl; [exact H|].
  apply IH. now apply add_group_unique.
Qed.

Lemma fold_patterns (toks : list (list ascii)) : forall groups,
  exists added,
    map pattern
      (fold_left (fun gs raw =>
         Config.add_group gs (Config.normalize_pattern normalize_path raw) addr)
         toks groups)
    = map pattern groups ++ added.
Proof.
  induction toks as [|raw toks IH]; intros groups; simpl.
  - exists []. now rewrite app_nil_r.
  - destruct (IH (Config.add_group groups
                    (Config.normalize_pattern normalize_path raw) addr))
      as [added Hadded].
    rewrite Hadded, add_group_patterns, <- app_assoc. eauto.
Qed.

Lemma fold_extends (toks : list (list ascii)) : forall groups,
  table_extends addr groups
    (fold_left (fun gs raw =>
       Config.add_group gs (Config.normalize_pattern normalize_path raw) addr)
       toks groups).
Proof.
  induction toks as [|raw toks IH]; intros groups; simpl.
  - apply table_extends_refl.
  - eapply table_extends_trans; [apply add_group_extends | apply IH].
Qed.

Lemma fold_serves (toks : list (list ascii)) : forall groups raw,
  In raw toks ->
  exists g,
    In g (fold_left (fun gs raw =>
            Config.add_group gs
              (Config.normalize_pattern normalize_path raw) addr)
            toks groups)
    /\ pattern g = Config.normalize_pattern normalize_path raw
    /\ In addr (addrs g).
Proof.
  induction toks as [|tok toks IH]; intros groups raw Hin; simpl in *; [tauto|].
  destruct Hin as [-> | Hin]; [|now apply IH].
  destruct (add_group_serves groups
              (Config.normalize_pattern normalize_path raw) addr)
    as [g [Hg [Hpat [before Hpool]]]].
  apply In_nth_error in Hg. destruct Hg as [i Hi].
  destruct (fold_extends toks _ i g Hi) as [g' [Hi' [Hp [more [Ha _]]]]].
  exists g'. split; [now apply nth_error_In in Hi'|].
  split; [congruence|].
  rewrite Ha, Hpool. apply in_or_app. left. apply in_or_app. right. now left.
Qed.

(** C9.  [parse_mapping] keeps the patterns of the table pairwise
    distinct.  Every group that was in the table stays at its index with
    its pattern, its pool only gaining [addr] at the back; the patterns
    of the new table are the old ones followed by the new ones; every
    pattern of the directive names a group that holds [addr].  In each
    round a pattern that names a group has [addr] appended to that
    group's pool, and a new pattern is pushed as a singleton group at the
    end; so two directives with the same single pattern give one group
    with both addresses in directive order. *)
Theorem parse_mapping_spec (src : list ascii)
    (groups : list DownstreamAddrGroup) :
  (unique_patterns groups ->
   unique_patterns (Config.parse_mapping normalize_path addr src groups))
  /\ (exists added,
        map pattern (Config.parse_mapping normalize_path addr src groups)
        = map pattern groups ++ added)
  /\ table_extends addr groups
       (Config.parse_mapping normalize_path addr src groups)
  /\ (forall raw, In raw (Config.parse_config_str_list src ":") ->
        exists g,
          In g (Config.parse_mapping normalize_path addr src groups)
          /\ pattern g = Config.normalize_pattern normalize_path raw
          /\ In addr (addrs g))
  /\ (forall gs pat, In pat (map pattern gs) ->
        exists pre g post,
          gs = pre ++ g :: post
          /\ pattern g = pat
          /\ ~ In pat (map pattern pre)
          /\ Config.add_group gs pat addr
             = pre ++ mkDownstreamAddrGroup pat (addrs g ++ [addr]) :: post)
  /\ (forall gs pat, ~ In pat (map pattern gs) ->
        Config.add_group gs pat addr
        = gs ++ [mkDownstreamAddrGroup pat [addr]])
  /\ (forall addr' src', ~ contains src ":" -> ~ contains src' ":" ->
        Config.normalize_pattern normalize_path src
        = Config.normalize_pattern normalize_path src' ->
        Config.parse_mapping normalize_path addr' src'
          (Config.parse_mapping normalize_path addr src [])
        = [mkDownstreamAddrGroup
             (Config.normalize_pattern normalize_path src) [addr; addr']]).
Proof.
  unfold Config.parse_mapping.
  split; [apply fold_unique|].
  split; [apply fold_patterns|].
  split; [apply fold_extends|].
  split; [intros raw; apply fold_serves|].
  split; [intros gs pat; apply add_group_merge|].
  split; [intros gs pat; apply add_group_new|].
  intros addr' src' Hs Hs' Heq.
  rewrite !parse_config_str_list_single by assumption.
  simpl. unfold Config.add_group at 2. simpl.
  unfold Config.add_group. simpl.
  now rewrite <- Heq, string_eq_refl.
Qed.

End Mapping_facts.

(** ** Worked requests *)

(** The more specific of two patterns of one host, through the router. *)
Lemma route_abs_path_example :
  request_host (str "example.com") = Some (str "example.com")
  /\ abs_path (path_span (str "/foo/bar?x=1"))
  /\ match_downstream_addr_group (str "example.com") (str "/foo/bar?x=1")
       [group_of "example.com/foo/"; group_of "example.com/foo/bar"] 0 = 1.
Proof.
  assert (Hh : request_host (str "example.com") = Some (str "example.com"))
    by reflexivity.
  assert (Hp : abs_path (path_span (str "/foo/bar?x=1")))
    by (now exists (str "foo/bar")).
  split; [exact Hh|]. split; [exact Hp|].
  destruct (route_abs_path (str "example.com") (str "/foo/bar?x=1")
              (str "example.com")
              [group_of "example.com/foo/"; group_of "example.com/foo/bar"]
              0 Hh Hp) as [E _].
  rewrite E. reflexivity.
Defined.

(** A request without a path is matched as "/" under its host. *)
Lemma route_degenerate_path_example :
  request_host (str "example.com:8080") = Some (str "example.com")
  /\ degenerate_path (path_span [])
  /\ match_downstream_addr_group (str "example.com:8080") []
       [group_of "/"; group_of "example.com/"] 0 = 1.
Proof.
  assert (Hh : request_host (str "example.com:8080") = Some (str "example.com"))
    by reflexivity.
  assert (Hp : degenerate_path (path_span [])) by (now left).
  split; [exact Hh|]. split; [exact Hp|].
  destruct (route_degenerate_path (str "example.com:8080") []
              (str "example.com")
              [group_of "/"; group_of "example.com/"] 0 Hh Hp) as [E _].
  rewrite E. reflexivity.
Defined.

(** An authority with a '/' goes to the catch-all group. *)
Lemma route_slash_in_hostport_example :
  contains (str "example.com/x") "/"
  /\ match_downstream_addr_group (str "example.com/x") (str "/x")
       [group_of "/"; group_of "example.com/"] 0 = 0.
Proof.
  assert (H : contains (str "example.com/x") "/").
  { unfold contains. simpl. do 11 right. now left. }
  split; [exact H|].
  apply (route_slash_in_hostport (str "example.com/x") (str "/x")
           [group_of "/"; group_of "example.com/"] 0 H).
Defined.

(** A directive with three patterns, two of which normalize alike, on the
    empty table. *)
Lemma parse_mapping_spec_example :
  unique_patterns []
  /\ unique_patterns
       (Config.parse_mapping (fun s => s)
          (mkDownstreamAddr (str "127.0.0.1") 80 false) (str "a:b/c:A") []).
Proof.
  assert (H : unique_patterns []) by constructor.
  split; [exact H|].
  apply (proj1 (parse_mapping_spec (fun s => s)
                  (mkDownstreamAddr (str "127.0.0.1") 80 false)
                  (str "a:b/c:A") []) H).
Defined.

(** The longer of two matching patterns wins. *)
Example match_longer_pattern :
  match_ (str "example.com") (str "/foo/bar")
    [group_of "example.com/foo/"; group_of "example.com/foo/bar"] = 1%Z.
Proof. reflexivity. Qed.

(** Between two matching groups with patterns of one length the first
    stays. *)
Example match_tie_first :
  match_ (str "example.com") (str "/foo/bar")
    [group_of "example.com/"; group_of "example.com/foo/";
     group_of "example.com/foo/"] = 1%Z.
Proof. reflexivity. Qed.

Example match_nothing :
  match_ (str "example.com") (str "/foo")
    [group_of "example.org/"; group_of "example.com/bar/"] = (-1)%Z.
Proof. reflexivity. Qed.

(** With the single pattern "/", any host and path resolve to it through
    the empty-host tier. *)
Example route_host_agnostic :
  match_ (str "anything") (str "/whatever") [group_of "/"] = (-1)%Z
  /\ match_downstream_addr_group (str "anything") (str "/whatever")
       [group_of "/"] 9 = 0.
Proof. split; reflexivity. Qed.

(** A degenerate path is not matched as it is, and the empty host is not
    tried for it. *)
Example route_degenerate_no_fallback :
  match_ [] (str "/") [group_of "/"; group_of "example.com*"] = 0%Z
  /\ path_match (str "example.com*") (str "example.com") (str "*") = true
  /\ match_downstream_addr_group (str "example.com") (str "*")
       [group_of "/"; group_of "example.com*"] 9 = 9.
Proof. repeat split. Qed.

Example path_span_examples :
  path_span (str "/a/b?x=1#frag") = str "/a/b"
  /\ path_span (str "/a/b#frag?x=1") = str "/a/b"
  /\ path_span (str "/a/b") = str "/a/b"
  /\ path_span (str "?x") = [].
Proof. repeat split. Qed.

Example parse_mapping_merges :
  Config.parse_mapping (fun s => s)
    (mkDownstreamAddr (str "10.0.0.2") 80 false) (str "Example.com/a:/")
    (Config.parse_mapping (fun s => s)
       (mkDownstreamAddr (str "10.0.0.1") 80 false) (str "example.COM/a:x") [])
  = [ mkDownstreamAddrGroup (str "example.com/a")
        [mkDownstreamAddr (str "10.0.0.1") 80 false;
         mkDownstreamAddr (str "10.0.0.2") 80 false];
      mkDownstreamAddrGroup (str "x/")
        [mkDownstreamAddr (str "10.0.0.1") 80 false];
      mkDownstreamAddrGroup (str "/")
        [mkDownstreamAddr (str "10.0.0.2") 80 false] ].
Proof. reflexivity. Qed.

(** ** Splitting and joining *)

Lemma parse_config_str_list_nonempty (s : list ascii) (delim : ascii) :
  Config.parse_config_str_list s delim <> [].
Proof.
  destruct s as [|c t]; simpl; [discriminate|].
  destruct (Ascii.eqb c delim); [discriminate|].
  destruct (Config.parse_config_str_list t delim); discriminate.
Qed.

Lemma parse_config_str_list_cut (w r : list ascii) (delim : ascii) :
  ~ contains w delim ->
  Config.parse_config_str_list (w ++ delim :: r) delim
  = w :: Config.parse_config_str_list r delim.
Proof.
  intros H. rewrite parse_config_str_list_step, (strchr_hit _ _ _ H).
  rewrite firstn_app_exact, skipn_app.
  replace (length w + 1 - length w) with 1 by lia.
  rewrite skipn_all2 by lia. reflexivity.
Qed.

Lemma join_cons (delim : ascii) (w w' : list ascii) (ws : list (list ascii)) :
  join delim (w :: w' :: ws) = w ++ delim :: join delim (w' :: ws).
Proof. reflexivity. Qed.

(** X1.  [parse_config_str_list] loses nothing: it returns one piece more
    than [s] has delimiters (so at least one), no piece holds a
    delimiter, and the pieces joined by the delimiter are [s] again. *)
Theorem parse_config_str_list_join (s : list ascii) (delim : ascii) :
  length (Config.parse_config_str_list s delim)
  = S (count_occ ascii_dec s delim)
  /\ Forall (fun w => ~ contains w delim) (Config.parse_config_str_list s delim)
  /\ join delim (Config.parse_config_str_list s delim) = s.
Proof.
  induction s as [|c t [IHlen [IHall IHjoin]]].
  - simpl. repeat split. constructor; [intros []|constructor].
  - simpl Config.parse_config_str_list. simpl count_occ.
    pose proof (parse_config_str_list_nonempty t delim) as Hne.
    destruct (Ascii.eqb c delim) eqn:E.
    + apply Ascii.eqb_eq in E. subst c.
      destruct (ascii_dec delim delim) as [_|Hn]; [|congruence].
      split; [simpl; now rewrite IHlen|].
      split; [constructor; [intros []|exact IHall]|].
      destruct (Config.parse_config_str_list t delim) as [|w ws];
        [congruence|].
      rewrite join_cons, IHjoin. reflexivity.
    + apply Ascii.eqb_neq in E.
      destruct (ascii_dec c delim) as [Hc|_]; [congruence|].
      destruct (Config.parse_config_str_list t delim) as [|w ws];
        [congruence|].
      split; [exact IHlen|].
      pose proof (Forall_inv IHall) as Hw.
      pose proof (Forall_inv_tail IHall) as Hws.
      split.
      * constructor; [|exact Hws]. intros [Hc | Hin]; [congruence|].
        now apply Hw.
      * destruct ws as [|w' ws'].
        -- simpl in *. now rewrite IHjoin.
        -- rewrite join_cons in *. rewrite <- app_comm_cons.
           now rewrite IHjoin.
Qed.

(** X2.  Splitting a joined list gives the list back, when there is at
    least one piece and no piece holds the delimiter. *)
Theorem parse_config_str_list_of_join (delim : ascii)
    (pieces : list (list ascii)) :
  pieces <> [] ->
  Forall (fun w => ~ contains w delim) pieces ->
  Config.parse_config_str_list (join delim pieces) delim = pieces.
Proof.
  intros Hne Hall. induction pieces as [|w rest IH]; [congruence|].
  inversion Hall as [|w0 ws0 Hw Hrest]; subst.
  destruct rest as [|w' ws'].
  - simpl. now apply parse_config_str_list_single.
  - rewrite join_cons, parse_config_str_list_cut by exact Hw.
    rewrite IH; [reflexivity | discriminate | exact Hrest].
Qed.

(** Three pieces, the middle one empty. *)
Lemma parse_config_str_list_of_join_example :
  Config.parse_config_str_list (str "h2::http/1.1") ":"
  = [str "h2"; []; str "http/1.1"].
Proof.
  assert (Hne : [str "h2"; []; str "http/1.1"] <> []) by discriminate.
  assert (Hall : Forall (fun w => ~ contains w ":")
                   [str "h2"; []; str "http/1.1"]).
  { repeat constructor; unfold contains; simpl; intros H;
      repeat (destruct H as [H | H]; [discriminate H|]); exact H. }
  exact (parse_config_str_list_of_join ":" _ Hne Hall).
Defined.

(** ** What the router depends on *)

Lemma route_path_span (hostport raw_path raw_path' : list ascii)
    (groups : list DownstreamAddrGroup) (catch_all : nat) :
  path_span raw_path = path_span raw_path' ->
  match_downstream_addr_group hostport raw_path groups catch_all
  = match_downstream_addr_group hostport raw_path' groups catch_all.
Proof. intros H. now rewrite !route_via_host, H. Qed.

Lemma route_request_host (hostport hostport' raw_path : list ascii)
    (groups : list DownstreamAddrGroup) (catch_all : nat) :
  request_host hostport = request_host hostport' ->
  match_downstream_addr_group hostport raw_path groups catch_all
  = match_downstream_addr_group hostport' raw_path groups catch_all.
Proof. intros H. now rewrite !route_via_host, H. Qed.

(** X3.  The query and the fragment of the request target never take
    part in routing: a target cut at its first '?' or '#' is routed like
    the whole target. *)
Theorem route_ignores_query_fragment (hostport path rest : list ascii)
    (c : ascii) (groups : list DownstreamAddrGroup) (catch_all : nat) :
  ~ contains path "?" -> ~ contains path "#" -> c = "?" \/ c = "#" ->
  match_downstream_addr_group hostport (path ++ c :: rest) groups catch_all
  = match_downstream_addr_group hostport path groups catch_all.
Proof.
  intros Hq Hf Hc. apply route_path_span.
  now rewrite path_span_cut, path_span_whole.
Qed.

(** A target with a query and a fragment. *)
Lemma route_ignores_query_fragment_example :
  match_downstream_addr_group (str "example.com")
    (str "/foo/bar" ++ "?" :: str "x=/baz/#top")
    [group_of "example.com/foo/"; group_of "example.com/foo/bar"] 0
  = match_downstream_addr_group (str "example.com") (str "/foo/bar")
      [group_of "example.com/foo/"; group_of "example.com/foo/bar"] 0.
Proof.
  apply route_ignores_query_fragment; [| |now left];
    unfold contains; simpl; intros H;
    repeat (destruct H as [H | H]; [discriminate H|]); exact H.
Defined.

Lemma host_tiers_result (h p : list ascii) (groups : list DownstreamAddrGroup)
    (catch_all : nat) :
  match_downstream_addr_group_host h p groups catch_all = catch_all
  \/ exists g h',
       nth_error groups (match_downstream_addr_group_host h p groups catch_all)
       = Some g
       /\ path_match (pattern g) h' (matched_path p) = true
       /\ (h' = h \/ h' = []).
Proof.
  unfold match_downstream_addr_group_host, matched_path.
  destruct ((length p =? 0) || negb (Ascii.eqb (nth 0 p zero) "/")).
  - destruct (match_cases h (str "/") groups) as [[E _] | [r [E Hb]]];
      rewrite E; [now left|].
    right. destruct Hb as [b [g [Hr [_ [Hm _]]]]].
    assert (E' : (Z.of_nat r =? -1)%Z = false) by lia.
    rewrite E', Nat2Z.id. simpl. exists g, h. tauto.
  - destruct (match_cases h p groups) as [[E _] | [r [E Hb]]]; rewrite E.
    + simpl.
      destruct (match_cases [] p groups) as [[E0 _] | [r [E0 Hb]]];
        rewrite E0; [now left|].
      right. destruct Hb as [b [g [Hr [_ [Hm _]]]]].
      assert (E' : (Z.of_nat r =? -1)%Z = false) by lia.
      rewrite E', Nat2Z.id. simpl. exists g, []. tauto.
    + right. destruct Hb as [b [g [Hr [_ [Hm _]]]]].
      assert (E' : (Z.of_nat r =? -1)%Z = false) by lia.
      rewrite E', Nat2Z.id. simpl. exists g, h. tauto.
Qed.

(** X4.  Whatever the request, the router answers [catch_all] or the
    index of a group of the table whose pattern matches the request host
    (or the empty host) and the path handed to [match]; so with
    [catch_all] inside the table the answer is always inside the table. *)
Theorem route_result_in_table (hostport raw_path : list ascii)
    (groups : list DownstreamAddrGroup) (catch_all : nat) :
  (match_downstream_addr_group hostport raw_path groups catch_all = catch_all
   \/ exists g h,
        nth_error groups
          (match_downstream_addr_group hostport raw_path groups catch_all)
        = Some g
        /\ path_match (pattern g) h (matched_path (path_span raw_path)) = true
        /\ (request_host hostport = Some h \/ h = []))
  /\ (catch_all < length groups ->
      match_downstream_addr_group hostport raw_path groups catch_all
      < length groups).
Proof.
  assert (H : match_downstream_addr_group hostport raw_path groups catch_all
              = catch_all
              \/ exists g h,
                   nth_error groups
                     (match_downstream_addr_group hostport raw_path groups
                        catch_all) = Some g
                   /\ path_match (pattern g) h
                        (matched_path (path_span raw_path)) = true
                   /\ (request_host hostport = Some h \/ h = [])).
  { rewrite route_via_host. destruct (request_host hostport) as [h|];
      [|now left].
    destruct (host_tiers_result h (path_span raw_path) groups catch_all)
      as [E | [g [h' [Hg [Hm Hh]]]]]; [now left|].
    right. exists g, h'. repeat split; try assumption.
    destruct Hh as [-> | ->]; [now left | now right]. }
  split; [exact H|].
  intros Hca. destruct H as [-> | [g [h [Hg _]]]]; [exact Hca|].
  apply nth_error_Some. congruence.
Qed.

(** ** Ports and letter case of the authority *)

Lemma existsb_app_chars (c : ascii) (a b : list ascii) :
  existsb (Ascii.eqb c) (a ++ b)
  = existsb (Ascii.eqb c) a || existsb (Ascii.eqb c) b.
Proof. apply existsb_app. Qed.

Lemma existsb_absent (c : ascii) (s : list ascii) :
  ~ contains s c -> existsb (Ascii.eqb c) s = false.
Proof.
  intros H. rewrite existsb_find, (find_none _ _ H), Nat.eqb_refl. reflexivity.
Qed.

Lemma request_host_plain_port (c : ascii) (t port : list ascii) :
  c <> "[" -> ~ contains (c :: t) ":" -> ~ contains port "/" ->
  request_host ((c :: t) ++ ":" :: port) = request_host (c :: t).
Proof.
  intros Hb Hno Hport.
  assert (Hc : c <> ":") by (intros ->; apply Hno; now left).
  unfold request_host.
  rewrite existsb_app_chars. simpl existsb at 2.
  rewrite (existsb_absent _ _ Hport), orb_false_r.
  destruct (existsb (Ascii.eqb "/") (c :: t)); [reflexivity|].
  change ((c :: t) ++ ":" :: port) with (c :: (t ++ ":" :: port)).
  rewrite (extract_plain c (t ++ ":" :: port) (c :: t) port Hb Hc eq_refl Hno).
  now rewrite (extract_plain_whole c t Hb Hc Hno).
Qed.

Lemma request_host_bracket_port (a port : list ascii) :
  ~ contains a "]" -> ~ contains port "/" ->
  request_host ("[" :: a ++ "]" :: ":" :: port)
  = request_host ("[" :: a ++ ["]"]).
Proof.
  intros Ha Hport. unfold request_host.
  replace ("[" :: a ++ "]" :: ":" :: port)
    with (("[" :: a ++ ["]"]) ++ ":" :: port)
    by (simpl; now rewrite <- app_assoc).
  rewrite existsb_app_chars. simpl existsb at 2.
  rewrite (existsb_absent _ _ Hport), orb_false_r.
  destruct (existsb (Ascii.eqb "/") ("[" :: a ++ ["]"])); [reflexivity|].
  replace (("[" :: a ++ ["]"]) ++ ":" :: port)
    with ("[" :: a ++ "]" :: ":" :: port)
    by (simpl; now rewrite <- app_assoc).
  cbv iota.
  rewrite (extract_bracket_ok a (":" :: port) Ha) by (right; now exists port).
  now rewrite (extract_bracket_ok a [] Ha) by now left.
Qed.

(** X5.  The port of the authority never takes part in routing: a plain
    host followed by [":"] and a port, and a bracketed literal followed
    by [":"] and a port, are routed like the host alone. *)
Theorem route_ignores_port (raw_path port : list ascii)
    (groups : list DownstreamAddrGroup) (catch_all : nat) :
  ~ contains port "/" ->
  (forall c t, c <> "[" -> ~ contains (c :: t) ":" ->
     match_downstream_addr_group ((c :: t) ++ ":" :: port) raw_path
       groups catch_all
     = match_downstream_addr_group (c :: t) raw_path groups catch_all)
  /\ (forall a, ~ contains a "]" ->
        match_downstream_addr_group ("[" :: a ++ "]" :: ":" :: port) raw_path
          groups catch_all
        = match_downstream_addr_group ("[" :: a ++ ["]"]) raw_path
            groups catch_all).
Proof.
  intros Hport. split.
  - intros c t Hb Hno. apply route_request_host.
    now apply request_host_plain_port.
  - intros a Ha. apply route_request_host.
    now apply request_host_bracket_port.
Qed.

(** The port 8443 after a bracketed literal. *)
Lemma route_ignores_port_example :
  match_downstream_addr_group ("[" :: str "::1" ++ "]" :: ":" :: str "8443")
    (str "/") [group_of "/"; group_of "[::1]/"] 0
  = match_downstream_addr_group ("[" :: str "::1" ++ ["]"])
      (str "/") [group_of "/"; group_of "[::1]/"] 0.
Proof.
  assert (Hport : ~ contains (str "8443") "/").
  { unfold contains; simpl; intros H;
      repeat (destruct H as [H | H]; [discriminate H|]); exact H. }
  apply (proj2 (route_ignores_port (str "/") (str "8443")
                  [group_of "/"; group_of "[::1]/"] 0 Hport)).
  unfold contains; simpl; intros H;
    repeat (destruct H as [H | H]; [discriminate H|]); exact H.
Defined.

(** The characters the router looks for in an authority are no letters:
    lowercasing neither makes nor removes one. *)
Lemma lowcase_eqb_special (x c : ascii) :
  In c ["/"; "["; "]"; ":"] ->
  Ascii.eqb (Util.lowcase x) c = Ascii.eqb x c.
Proof.
  intros [<- | [<- | [<- | [<- | []]]]];
    destruct x as [[] [] [] [] [] [] [] []]; reflexivity.
Qed.

Lemma find_lower (s : list ascii) (c : ascii) :
  In c ["/"; "["; "]"; ":"] ->
  Std.find (Util.inp_strlower s) c = Std.find s c.
Proof.
  intros Hc. induction s as [|x t IH]; simpl; [reflexivity|].
  rewrite (lowcase_eqb_special x c Hc), IH. reflexivity.
Qed.

Lemma nth_lower (s : list ascii) (n : nat) :
  nth n (Util.inp_strlower s) zero = Util.lowcase (nth n s zero).
Proof.
  unfold Util.inp_strlower.
  change zero with (Util.lowcase zero) at 1. apply map_nth.
Qed.

Lemma firstn_lower (s : list ascii) (n : nat) :
  firstn n (Util.inp_strlower s) = Util.inp_strlower (firstn n s).
Proof. unfold Util.inp_strlower. apply firstn_map. Qed.

Lemma extract_host_lower (hostport : list ascii) :
  extract_host (Util.inp_strlower hostport)
  = option_map Util.inp_strlower (extract_host hostport).
Proof.
  unfold extract_host.
  rewrite !nth_lower, inp_strlower_length, !firstn_lower.
  rewrite !lowcase_eqb_special by (simpl; tauto).
  rewrite !find_lower by (simpl; tauto).
  destruct (Ascii.eqb (nth 0 hostport zero) "[").
  - destruct (Std.find hostport "]" =? length hostport); [reflexivity|].
    destruct ((Std.find hostport "]" + 1 <? length hostport)
              && negb (Ascii.eqb (nth (Std.find hostport "]" + 1) hostport zero)
                         ":")); reflexivity.
  - destruct (Std.find hostport ":" =? 0); reflexivity.
Qed.

Lemma request_host_case (hostport : list ascii) :
  request_host (Util.inp_strlower hostport) = request_host hostport.
Proof.
  unfold request_host.
  rewrite !existsb_find, inp_strlower_length, find_lower by (simpl; tauto).
  destruct (negb (Std.find hostport "/" =? length hostport)); [reflexivity|].
  destruct hostport as [|c t]; [reflexivity|].
  change (Util.inp_strlower (c :: t))
    with (Util.lowcase c :: Util.inp_strlower t).
  cbv iota.
  change (Util.lowcase c :: Util.inp_strlower t)
    with (Util.inp_strlower (c :: t)).
  rewrite extract_host_lower.
  destruct (extract_host (c :: t)); simpl; [|reflexivity].
  now rewrite inp_strlower_idem.
Qed.

(** X6.  Routing does not depend on the letter case of the authority:
    an authority is routed like its lowercased form, so two authorities
    that differ only in letter case are routed alike. *)
Theorem route_case_insensitive (hostport raw_path : list ascii)
    (groups : list DownstreamAddrGroup) (catch_all : nat) :
  match_downstream_addr_group (Util.inp_strlower hostport) raw_path
    groups catch_all
  = match_downstream_addr_group hostport raw_path groups catch_all
  /\ (forall hostport',
        Util.inp_strlower hostport = Util.inp_strlower hostport' ->
        match_downstream_addr_group hostport raw_path groups catch_all
        = match_downstream_addr_group hostport' raw_path groups catch_all).
Proof.
  split.
  - apply route_request_host. apply request_host_case.
  - intros hostport' H. apply route_request_host.
    rewrite <- (request_host_case hostport), H. apply request_host_case.
Qed.

(** ** Patterns of one length *)

Lemma app_same_length (A : Type) (a b u v : list A) :
  a ++ u = b ++ v -> length a = length b -> a = b.
Proof.
  intros H Hlen. apply (f_equal (firstn (length a))) in H.
  rewrite firstn_app_exact in H.
  rewrite Hlen, firstn_app_exact in H. exact H.
Qed.

Lemma removelast_length (s : list ascii) :
  s <> [] -> length (removelast s) = length s - 1.
Proof.
  intros H. rewrite (back_decompose s H) at 2.
  rewrite length_app. simpl. lia.
Qed.

(** Two patterns of one length that match the same host and path are the
    same pattern. *)
Lemma path_match_same_length (P P' h p : list ascii) :
  P <> [] -> P' <> [] ->
  path_match P h p = true -> path_match P' h p = true ->
  length P = length P' -> P = P'.
Proof.
  intros Hne Hne' Hm Hm' Hlen.
  assert (Hcross : forall Q Q', Q <> [] -> Q' <> [] ->
            length Q = length Q' ->
            has_prefix (h ++ p) Q -> h ++ p = removelast Q' -> False).
  { intros Q Q' HQ HQ' HL [u Hu] Hr.
    apply (f_equal (@length _)) in Hu, Hr.
    rewrite !length_app in Hu.
    rewrite length_app, (removelast_length Q' HQ') in Hr.
    assert (length Q' <> 0) by (intros E; apply length_zero_iff_nil in E;
                                  congruence).
    lia. }
  destruct (ascii_dec (Std.back P) "/") as [Hb | Hb];
    destruct (ascii_dec (Std.back P') "/") as [Hb' | Hb'].
  - apply (path_match_dir P h p Hb) in Hm.
    apply (path_match_dir P' h p Hb') in Hm'.
    destruct Hm as [[_ Hp] | Hr]; destruct Hm' as [[_ Hp'] | Hr'].
    + destruct Hp as [u Hu], Hp' as [u' Hu'].
      apply (app_same_length _ P P' u u'); congruence.
    + exfalso. now apply (Hcross P P').
    + exfalso. apply (Hcross P' P); auto.
    + rewrite (back_decompose P Hne), (back_decompose P' Hne').
      congruence.
  - apply (path_match_dir P h p Hb) in Hm.
    apply (path_match_exact P' h p Hb') in Hm'.
    destruct Hm as [[_ [u Hu]] | Hr].
    + exfalso. apply Hb'. rewrite <- Hb. f_equal. symmetry.
      apply (app_same_length _ P P' u []); [|exact Hlen].
      rewrite app_nil_r. congruence.
    + exfalso. apply (Hcross P' P); auto.
      exists []. rewrite app_nil_r. congruence.
  - apply (path_match_exact P h p Hb) in Hm.
    apply (path_match_dir P' h p Hb') in Hm'.
    destruct Hm' as [[_ [u Hu]] | Hr].
    + apply (app_same_length _ P P' [] u); [|exact Hlen].
      rewrite app_nil_r. congruence.
    + exfalso. apply (Hcross P P'); auto.
      exists []. rewrite app_nil_r. congruence.
  - apply (path_match_exact P h p Hb) in Hm.
    apply (path_match_exact P' h p Hb') in Hm'. congruence.
Qed.

(** X7.  In a table with pairwise distinct, non-empty patterns, two
    different groups that match the same request have patterns of
    different lengths: the longest match is unique and the tie rule of
    [match] never has to decide. *)
Theorem unique_patterns_no_tie (groups : list DownstreamAddrGroup)
    (h p : list ascii) (i j : nat) (g g' : DownstreamAddrGroup) :
  unique_patterns groups ->
  Forall (fun g => pattern g <> []) groups ->
  nth_error groups i = Some g -> nth_error groups j = Some g' ->
  path_match (pattern g) h p = true -> path_match (pattern g') h p = true ->
  i <> j ->
  length (pattern g) <> length (pattern g').
Proof.
  intros Huniq Hne Hi Hj Hm Hm' Hij Hlen. apply Hij.
  assert (Hg : pattern g <> []).
  { apply nth_error_In in Hi. rewrite Forall_forall in Hne. now apply Hne. }
  assert (Hg' : pattern g' <> []).
  { apply nth_error_In in Hj. rewrite Forall_forall in Hne. now apply Hne. }
  pose proof (path_match_same_length _ _ h p Hg Hg' Hm Hm' Hlen) as Heq.
  unfold unique_patterns in Huniq.
  rewrite NoDup_nth_error in Huniq. apply Huniq.
  - rewrite length_map. apply nth_error_Some. congruence.
  - rewrite !nth_error_map, Hi, Hj. simpl. now rewrite Heq.
Qed.

(** Both worked patterns match the request for "/foo/bar". *)
Lemma unique_patterns_no_tie_example :
  length (str "example.com/foo/") <> length (str "example.com/foo/bar").
Proof.
  assert (Hu : unique_patterns
                 [group_of "example.com/foo/"; group_of "example.com/foo/bar"]).
  { unfold unique_patterns. simpl. constructor.
    - intros [H | []]. discriminate H.
    - constructor; [intros [] | constructor]. }
  assert (Hne : Forall (fun g => pattern g <> [])
                  [group_of "example.com/foo/"; group_of "example.com/foo/bar"])
    by (repeat constructor; discriminate).
  assert (Hij : 0 <> 1) by discriminate.
  exact (unique_patterns_no_tie
           [group_of "example.com/foo/"; group_of "example.com/foo/bar"]
           (str "example.com") (str "/foo/bar") 0 1
           (group_of "example.com/foo/") (group_of "example.com/foo/bar")
           Hu Hne eq_refl eq_refl eq_refl eq_refl Hij).
Defined.

(** ** Growing the table under the router *)

Section Grow.

Variables host path : list ascii.
Variables groups groups' : list DownstreamAddrGroup.
Variable added : list (list ascii).
Hypothesis Hgrow : map pattern groups' = map pattern groups ++ added.

Lemma grow_pattern (i : nat) (g : DownstreamAddrGroup) :
  nth_error groups i = Some g ->
  exists g', nth_error groups' i = Some g' /\ pattern g' = pattern g.
Proof.
  intros Hi.
  assert (Hlt : i < length groups) by (apply nth_error_Some; congruence).
  assert (H : nth_error (map pattern groups') i = Some (pattern g)).
  { rewrite Hgrow, nth_error_app1 by now rewrite length_map.
    now rewrite nth_error_map, Hi. }
  rewrite nth_error_map in H.
  destruct (nth_error groups' i) as [g'|]; [|discriminate].
  exists g'. split; [reflexivity|]. simpl in H. congruence.
Qed.

Lemma grow_pattern_back (i : nat) (g' : DownstreamAddrGroup) :
  i < length groups -> nth_error groups' i = Some g' ->
  exists g, nth_error groups i = Some g /\ pattern g = pattern g'.
Proof.
  intros Hlt Hi.
  destruct (nth_error groups i) as [g|] eqn:E.
  - exists g. split; [reflexivity|].
    destruct (grow_pattern i g E) as [g0 [Hg0 Hp]]. congruence.
  - apply nth_error_None in E. lia.
Qed.

(** The best match of the grown table, when it is an old index, is the
    best match of the old table. *)
Lemma grow_best_old (r : nat) :
  r < length groups -> best_match host path groups' r ->
  best_match host path groups r.
Proof.
  intros Hlt [b [g' [Hr [Hb [Hm Hbest]]]]].
  destruct (grow_pattern_back r g' Hlt Hr) as [g [Hg Hp]].
  exists b, g. rewrite Hp. repeat split; try assumption.
  - destruct (grow_pattern j g'0 H) as [g1 [Hg1 Hp1]].
    rewrite <- Hp1 in *. now apply (Hbest j g1).
  - destruct (grow_pattern j g'0 H) as [g1 [Hg1 Hp1]].
    rewrite <- Hp1 in *. now apply (Hbest j g1).
Qed.

Lemma grow_routes :
  (forall r, match_ host path groups = Z.of_nat r ->
     match_ host path groups' = Z.of_nat r
     \/ exists r' g g',
          match_ host path groups' = Z.of_nat r'
          /\ length groups <= r'
          /\ nth_error groups r = Some g
          /\ nth_error groups' r' = Some g'
          /\ length (pattern g) < length (pattern g'))
  /\ (match_ host path groups = (-1)%Z ->
      match_ host path groups' = (-1)%Z
      \/ exists r', match_ host path groups' = Z.of_nat r'
                    /\ length groups <= r').
Proof.
  split.
  - intros r Hr. apply match_some_iff in Hr.
    pose proof Hr as [b [g [Hg [Hb [Hm Hbest]]]]].
    destruct (grow_pattern r g Hg) as [g0 [Hg0 Hp0]].
    destruct (match_cases host path groups') as [[_ Hno] | [r' [E Hb']]].
    + pose proof (Hno r g0 Hg0) as Hf. rewrite Hp0 in Hf. congruence.
    + destruct (Nat.lt_ge_cases r' (length groups)) as [Hlt | Hge].
      * left. rewrite E. f_equal.
        apply (best_match_unique host path groups); [|exact Hr].
        now apply grow_best_old.
      * right. pose proof Hb' as [b' [g' [Hg' [Hlen' [Hm' Hbest']]]]].
        exists r', g, g'. repeat split; try assumption.
        assert (Hm0 : path_match (pattern g0) host path = true)
          by now rewrite Hp0.
        destruct (Hbest' r g0 Hg0 Hm0) as [Hle Hfirst].
        assert (Hrlt : r < length groups)
          by (apply nth_error_Some; congruence).
        rewrite Hp0 in *.
        destruct (Nat.eq_dec (length (pattern g)) b') as [Heq | Hneq].
        -- specialize (Hfirst Heq). lia.
        -- lia.
  - intros Hnone.
    destruct (match_cases host path groups') as [[E _] | [r' [E Hb']]];
      [now left|].
    right. exists r'. split; [exact E|].
    destruct (Nat.lt_ge_cases r' (length groups)) as [Hlt | Hge]; [|exact Hge].
    apply grow_best_old in Hb'; [|exact Hlt].
    apply match_some_iff in Hb'. lia.
Qed.

End Grow.

Section Mapping_routes.

Variable normalize_path : list ascii -> list ascii.

(** X8.  [parse_mapping] never moves a request from one old group to
    another: a request that [match] resolved to group [r] still resolves
    to [r], unless a group the directive added matches with a strictly
    longer pattern; a request that matched no group matches none or one
    of the added groups. *)
Theorem parse_mapping_keeps_routes (addr : DownstreamAddr)
    (src host path : list ascii) (groups : list DownstreamAddrGroup) :
  (forall r, match_ host path groups = Z.of_nat r ->
     match_ host path (Config.parse_mapping normalize_path addr src groups)
     = Z.of_nat r
     \/ exists r' g g',
          match_ host path
            (Config.parse_mapping normalize_path addr src groups)
          = Z.of_nat r'
          /\ length groups <= r'
          /\ nth_error groups r = Some g
          /\ nth_error (Config.parse_mapping normalize_path addr src groups) r'
             = Some g'
          /\ length (pattern g) < length (pattern g'))
  /\ (match_ host path groups = (-1)%Z ->
      match_ host path (Config.parse_mapping normalize_path addr src groups)
      = (-1)%Z
      \/ exists r',
           match_ host path
             (Config.parse_mapping normalize_path addr src groups)
           = Z.of_nat r'
           /\ length groups <= r').
Proof.
  destruct (fold_patterns normalize_path addr
              (Config.parse_config_str_list src ":") groups) as [added Hadded].
  exact (grow_routes host path groups
           (Config.parse_mapping normalize_path addr src groups) added Hadded).
Qed.

End Mapping_routes.

(** ** Header options *)

Lemma find_split (s : list ascii) (c : ascii) :
  Std.find s c < length s ->
  s = firstn (Std.find s c) s ++ c :: skipn (S (Std.find s c)) s
  /\ ~ contains (firstn (Std.find s c) s) c.
Proof.
  unfold contains. induction s as [|x t IH]; simpl; [lia|].
  destruct (Ascii.eqb x c) eqn:E.
  - apply Ascii.eqb_eq in E. subst x. intros _. simpl. tauto.
  - apply Ascii.eqb_neq in E. intros H.
    destruct IH as [IH1 IH2]; [lia|]. split.
    + change (x :: t = x :: (firstn (Std.find t c) t
                             ++ c :: skipn (S (Std.find t c)) t)).
      now rewrite <- IH1.
    + simpl. intros [Hx | Hin]; [congruence | tauto].
Qed.

Lemma strchr_some (s : list ascii) (c : ascii) (k : nat) :
  Std.strchr s c = Some k ->
  exists a b, s = a ++ c :: b /\ length a = k /\ ~ contains a c.
Proof.
  unfold Std.strchr. destruct (Std.find s c <? length s) eqn:E; [|discriminate].
  intros H. injection H as <-. apply Nat.ltb_lt in E.
  destruct (find_split s c E) as [Hs Hno].
  exists (firstn (Std.find s c) s), (skipn (S (Std.find s c)) s).
  split; [exact Hs|]. split; [|exact Hno].
  apply firstn_length_le. lia.
Qed.

Lemma strchr_none_iff (s : list ascii) (c : ascii) :
  Std.strchr s c = None <-> ~ contains s c.
Proof.
  split; [|apply strchr_none].
  unfold Std.strchr. destruct (Std.find s c <? length s) eqn:E; [discriminate|].
  intros _ Hin. apply find_lt_iff in Hin. apply Nat.ltb_ge in E. lia.
Qed.

Lemma skip_blanks_split (s : list ascii) :
  exists blanks,
    s = blanks ++ Options.skip_blanks s
    /\ Forall blank blanks
    /\ (forall c rest, Options.skip_blanks s = c :: rest -> ~ blank c).
Proof.
  induction s as [|x t [blanks [Hs [Hall Hhead]]]].
  - exists []. repeat split; [constructor | discriminate].
  - simpl. destruct (Ascii.eqb x "009" || Ascii.eqb x " ") eqn:E.
    + exists (x :: blanks). split; [simpl; now rewrite <- Hs|].
      split; [|exact Hhead]. constructor; [|exact Hall].
      apply orb_true_iff in E. unfold blank.
      destruct E as [E | E]; apply Ascii.eqb_eq in E; tauto.
    + exists []. split; [reflexivity|]. split; [constructor|].
      intros c rest H. injection H as <- <-.
      apply orb_false_iff in E. destruct E as [E1 E2].
      apply Ascii.eqb_neq in E1, E2. unfold blank. tauto.
Qed.

(** X9.  When [parse_header] accepts a non-empty option value (the name
    it returns is not empty), the value read back as name, ':', blanks
    and header value is the option value: the name is the text before
    the first ':' behind the first character and is not ":" alone, only
    tabs and spaces are dropped, and the header value does not start
    with one. *)
Theorem parse_header_accepts (optarg name value : list ascii) :
  optarg <> [] ->
  Options.parse_header optarg = (name, value) ->
  name <> [] ->
  exists blanks,
    optarg = name ++ ":" :: blanks ++ value
    /\ Forall blank blanks
    /\ (forall c rest, value = c :: rest -> ~ blank c)
    /\ ~ contains (skipn 1 name) ":"
    /\ name <> [":"].
Proof.
  intros Hne. destruct optarg as [|c0 t]; [congruence|].
  unfold Options.parse_header. simpl skipn at 1.
  destruct (Std.strchr t ":") as [k|] eqn:Hk;
    [|intros H; injection H; congruence].
  destruct (strchr_some t ":" k Hk) as [a [b [Ht [Hlen Hno]]]].
  change (nth 0 (c0 :: t) zero) with c0.
  destruct (Ascii.eqb c0 ":" && (k =? 0)) eqn:E;
    [intros H; injection H; congruence|].
  assert (Hname : firstn (1 + k) (c0 :: t) = c0 :: a).
  { simpl. f_equal. subst t k. apply firstn_app_exact. }
  assert (Hval : skipn (1 + k + 1) (c0 :: t) = b).
  { replace (1 + k + 1) with (S (k + 1)) by lia. simpl. subst t k.
    rewrite skipn_app, skipn_all2 by lia.
    replace (length a + 1 - length a) with 1 by lia. reflexivity. }
  rewrite Hname, Hval.
  intros H _. apply pair_equal_spec in H. destruct H as [<- <-].
  destruct (skip_blanks_split b) as [blanks [Hb [Hall Hhead]]].
  exists blanks. split; [simpl; now rewrite <- Hb, <- Ht|].
  split; [exact Hall|]. split; [exact Hhead|]. split; [exact Hno|].
  intros Heq. injection Heq as -> ->.
  simpl in Hlen. subst k. discriminate E.
Qed.

(** The header "Via", its value set off by a space and a tab. *)
Lemma parse_header_accepts_example :
  exists blanks,
    str "Via:" ++ " " :: "009" :: str "1.1 shrpx"
    = str "Via" ++ ":" :: blanks ++ str "1.1 shrpx"
    /\ Forall blank blanks.
Proof.
  assert (Hne : str "Via:" ++ " " :: "009" :: str "1.1 shrpx" <> [])
    by discriminate.
  assert (Hname : str "Via" <> []) by discriminate.
  destruct (parse_header_accepts
              (str "Via:" ++ " " :: "009" :: str "1.1 shrpx") (str "Via")
              (str "1.1 shrpx") Hne eq_refl Hname)
    as [blanks [H1 [H2 _]]].
  exists blanks. split; assumption.
Defined.

(** X10.  [parse_header] refuses a non-empty option value exactly when
    there is no ':' behind its first character or when it starts with
    "::" (the name would be ":"); it then returns two empty strings. *)
Theorem parse_header_refuses (optarg : list ascii) :
  optarg <> [] ->
  (fst (Options.parse_header optarg) = []
   <-> ~ contains (skipn 1 optarg) ":"
       \/ exists rest, optarg = ":" :: ":" :: rest)
  /\ (fst (Options.parse_header optarg) = [] ->
      Options.parse_header optarg = ([], [])).
Proof.
  intros Hne. destruct optarg as [|c0 t]; [congruence|].
  unfold Options.parse_header. change (skipn 1 (c0 :: t)) with t.
  change (nth 0 (c0 :: t) zero) with c0.
  destruct (Std.strchr t ":") as [k|] eqn:Hk.
  - destruct (strchr_some t ":" k Hk) as [a [b [Ht [Hlen Hno]]]].
    assert (Hin : contains t ":").
    { subst t. apply in_or_app. right. now left. }
    destruct (Ascii.eqb c0 ":" && (k =? 0)) eqn:E.
    + apply andb_true_iff in E. destruct E as [E1 E2].
      apply Ascii.eqb_eq in E1. apply Nat.eqb_eq in E2.
      rewrite E2 in Hlen. apply length_zero_iff_nil in Hlen.
      subst a c0. simpl in Ht. subst t.
      simpl. split; [|reflexivity]. split; [|reflexivity].
      intros _. right. now exists b.
    + simpl. split; [|discriminate]. split; [discriminate|].
      intros [H | [rest H]]; [tauto|].
      injection H as -> ->. simpl in Hk.
      unfold Std.strchr in Hk. simpl in Hk. injection Hk as <-.
      discriminate E.
  - simpl. split; [|reflexivity]. split; [|reflexivity].
    intros _. left. now apply strchr_none_iff.
Qed.

(** A value with no colon at all. *)
Lemma parse_header_refuses_example :
  Options.parse_header (str "Via") = ([], []).
Proof.
  assert (Hne : str "Via" <> []) by discriminate.
  apply (proj2 (parse_header_refuses (str "Via") Hne)). reflexivity.
Defined.

(** ** Backend addresses *)

Section Address_facts.

Variable parse_uint : list ascii -> Z -> Z.
Variable size_bits : Z.
Variable istartsWith : list ascii -> list ascii -> bool.
Variable SHRPX_UNIX_PATH_PREFIX : list ascii.
Variable NI_MAXHOST : nat.
Variable DownstreamAddr_default : DownstreamAddr.
Variable normalize_path : list ascii -> list ascii.

(** X11.  When [split_host_port] succeeds, the host it wrote is the text
    before the first ',' and fits the buffer together with its
    terminator, and the port is the number [util::parse_uint] read
    behind that ',' and lies between 1 and 65535, so that it is stored
    in the 16-bit port without loss.  It fails when there is no ',' and
    when the text before the first ',' does not fit. *)
Theorem split_host_port_spec (hostlen hostportlen : nat)
    (hostport : list ascii) :
  (forall host port,
     Options.split_host_port parse_uint size_bits hostlen hostport hostportlen
     = Some (host, port) ->
     exists rest,
       hostport = host ++ "," :: rest
       /\ ~ contains host ","
       /\ length host + 1 <= hostlen
       /\ (1 <= port <= 65535)%Z
       /\ port = parse_uint rest
                   ((Z.of_nat hostportlen - Z.of_nat (length host) - 1)
                    mod 2 ^ size_bits)%Z)
  /\ (~ contains hostport "," ->
      Options.split_host_port parse_uint size_bits hostlen hostport hostportlen
      = None)
  /\ (forall a b, hostport = a ++ "," :: b -> ~ contains a "," ->
        hostlen <= length a ->
        Options.split_host_port parse_uint size_bits hostlen hostport
          hostportlen = None).
Proof.
  unfold Options.split_host_port. split; [|split].
  - intros host port.
    destruct (Std.strchr hostport ",") as [len|] eqn:Hk; [|discriminate].
    destruct (strchr_some _ _ _ Hk) as [a [b [Hs [Hlen Hno]]]].
    destruct (hostlen <? len + 1) eqn:Hfit; [discriminate|].
    apply Nat.ltb_ge in Hfit. cbv zeta.
    assert (Hhost : firstn len hostport = a)
      by (subst hostport len; apply firstn_app_exact).
    assert (Hrest : skipn (len + 1) hostport = b).
    { subst hostport len. rewrite skipn_app, skipn_all2 by lia.
      replace (length a + 1 - length a) with 1 by lia. reflexivity. }
    rewrite Hhost, Hrest.
    destruct ((1 <=? parse_uint b _)%Z && (parse_uint b _ <=? 65535)%Z) eqn:E;
      [|discriminate].
    intros H. injection H as <- <-.
    apply andb_true_iff in E. destruct E as [E1 E2].
    apply Z.leb_le in E1, E2.
    exists b. rewrite Hlen. repeat split; solve [assumption | lia].
  - intros H. now rewrite (strchr_none _ _ H).
  - intros a b -> Ha Hfit. rewrite (strchr_hit _ _ _ Ha).
    assert (E : (hostlen <? length a + 1) = true) by (apply Nat.ltb_lt; lia).
    now rewrite E.
Qed.

(** What the backend branch takes for the address part [a] and the
    pattern part [mapping] of [optarg]. *)
Lemma backend_parts (optarg : list ascii) :
  exists a mapping,
    (optarg = a /\ mapping = [] \/ optarg = a ++ ";" :: mapping)
    /\ ~ contains a ";"
    /\ match Std.strchr optarg ";" with
       | Some i => i
       | None => length optarg
       end = length a
    /\ (if length a <? length optarg then skipn (length a + 1) optarg
        else skipn (length a) optarg) = mapping.
Proof.
  destruct (Std.strchr optarg ";") as [i|] eqn:Hk.
  - destruct (strchr_some _ _ _ Hk) as [a [b [Hs [Hlen Hno]]]].
    exists a, b. split; [now right|]. split; [exact Hno|].
    split; [now symmetry|]. subst optarg.
    assert (E : (length a <? length (a ++ ";" :: b)) = true).
    { apply Nat.ltb_lt. rewrite length_app. simpl. lia. }
    rewrite E, skipn_app, skipn_all2 by lia.
    replace (length a + 1 - length a) with 1 by lia. reflexivity.
  - apply strchr_none_iff in Hk. exists optarg, [].
    split; [now left|]. split; [exact Hk|]. split; [reflexivity|].
    rewrite Nat.ltb_irrefl. apply skipn_all.
Qed.

(** X12.  When the backend branch of [parse_config] succeeds, [optarg]
    is an address part without ';', alone or followed by ';' and a
    pattern part without ';', and the table is the one [parse_mapping]
    makes for that address and pattern part: patterns stay pairwise
    distinct and the groups of the old table stay in place.  With no
    pattern part, or an empty one, the address joins the group of the
    pattern "/". *)
Theorem parse_config_backend_accepts (optarg : list ascii)
    (groups groups' : list DownstreamAddrGroup) :
  Options.parse_config_backend parse_uint size_bits istartsWith
    SHRPX_UNIX_PATH_PREFIX NI_MAXHOST DownstreamAddr_default normalize_path
    optarg groups = Some groups' ->
  exists addr a mapping,
    (optarg = a /\ mapping = [] \/ optarg = a ++ ";" :: mapping)
    /\ ~ contains a ";" /\ ~ contains mapping ";"
    /\ Options.backend_addr parse_uint size_bits istartsWith
         SHRPX_UNIX_PATH_PREFIX NI_MAXHOST DownstreamAddr_default
         optarg (length a) = Some addr
    /\ groups' = Config.parse_mapping normalize_path addr mapping groups
    /\ (unique_patterns groups -> unique_patterns groups')
    /\ table_extends addr groups groups'
    /\ (mapping = [] ->
        exists g before,
          In g groups' /\ pattern g = str "/" /\ addrs g = before ++ [addr]).
Proof.
  unfold Options.parse_config_backend. cbv zeta.
  destruct (backend_parts optarg) as [a [mapping [Hshape [Ha [Hdelim Hmap]]]]].
  rewrite Hdelim, Hmap.
  destruct (Options.backend_addr _ _ _ _ _ _ optarg (length a))
    as [addr|] eqn:Haddr; [|discriminate].
  destruct (Std.strchr mapping ";") eqn:Hsemi; [discriminate|].
  intros H. injection H as <-.
  apply strchr_none_iff in Hsemi.
  exists addr, a, mapping.
  split; [exact Hshape|]. split; [exact Ha|]. split; [exact Hsemi|].
  split; [exact Haddr|]. split; [reflexivity|].
  split; [apply fold_unique|]. split; [apply fold_extends|].
  intros ->.
  destruct (add_group_serves groups (str "/") addr)
    as [g [Hg [Hp [before Hb]]]].
  exists g, before. split; [exact Hg|]. split; assumption.
Qed.


End Address_facts.

(** ** The access log format: well-formed fragments *)

Lemma ends_open_snoc (res : list LogFormat.LogFragment)
    (f : LogFormat.LogFragment) :
  ends_open (res ++ [f]) <-> ~ is_literal f.
Proof. unfold ends_open. rewrite rev_app_distr. simpl. tauto. Qed.

Lemma ends_open_cons (f : LogFormat.LogFragment)
    (res : list LogFormat.LogFragment) :
  res <> [] -> (ends_open (f :: res) <-> ends_open res).
Proof.
  intros Hne. unfold ends_open. simpl.
  destruct (rev res) as [|l t] eqn:E.
  - apply (f_equal (@rev _)) in E. rewrite rev_involutive in E.
    simpl in E. congruence.
  - simpl. tauto.
Qed.

Lemma well_formed_snoc (res : list LogFormat.LogFragment)
    (f : LogFormat.LogFragment) :
  well_formed res -> fragment_ok f -> (is_literal f -> ends_open res) ->
  well_formed (res ++ [f]).
Proof.
  intros Hwf [Hlit Hhttp] Hopen. induction res as [|f0 rest IH].
  - simpl. repeat split; auto.
  - destruct Hwf as [Hlit0 [Hhttp0 Hrest]]. simpl.
    split; [|split; [exact Hhttp0|]].
    + intros Hl. destruct (Hlit0 Hl) as [Hv Hnext]. split; [exact Hv|].
      destruct rest as [|f1 rest']; [|exact Hnext].
      simpl. intros Hf. specialize (Hopen Hf).
      unfold ends_open in Hopen. simpl in Hopen. tauto.
    + apply IH; [exact Hrest|].
      intros Hf. specialize (Hopen Hf).
      destruct rest as [|f1 rest']; [exact I|].
      apply ends_open_cons in Hopen; [exact Hopen | discriminate].
Qed.

Lemma dash_no_underscore (v : list ascii) : ~ contains (LogFormat.dash v) "_".
Proof.
  unfold contains, LogFormat.dash. intros H.
  apply in_map_iff in H. destruct H as [c [Hc _]].
  destruct (Ascii.eqb c "_") eqn:E; [discriminate|].
  apply Ascii.eqb_neq in E. congruence.
Qed.

Lemma span_nonempty (optarg : list ascii) (first last : nat) :
  first < last -> last <= length optarg ->
  LogFormat.span optarg first (last - first) <> [].
Proof.
  intros Hlt Hle H. apply (f_equal (@length _)) in H.
  unfold LogFormat.span in H. rewrite length_firstn, length_skipn in H.
  simpl in H. lia.
Qed.

Section LogFormat_facts.

Variable isAlpha : ascii -> bool.
Variable isDigit : ascii -> bool.
Variable strieq_l : list ascii -> list ascii -> bool.
Variable istartsWith : list ascii -> list ascii -> bool.

Lemma token_run_le (l : list ascii) :
  LogFormat.token_run isAlpha isDigit l <= length l.
Proof.
  induction l as [|c t IH]; simpl; [lia|].
  destruct (LogFormat.var_token isAlpha isDigit c); lia.
Qed.

Lemma token_run_skipn (optarg : list ascii) (p : nat) :
  p <= length optarg ->
  p + LogFormat.token_run isAlpha isDigit (skipn p optarg) <= length optarg.
Proof.
  intros H. pose proof (token_run_le (skipn p optarg)) as Hle.
  rewrite length_skipn in Hle. lia.
Qed.

(** A recognized name gives a fragment that is no literal; only an HTTP
    header name carries a text. *)
Lemma classify_type (var_name : list ascii) (ty : LogFormat.LogFragmentType)
    (v : option (list ascii)) :
  LogFormat.classify strieq_l istartsWith var_name = Some (ty, v) ->
  ty <> LogFormat.SHRPX_LOGF_LITERAL
  /\ (ty = LogFormat.SHRPX_LOGF_HTTP -> v <> None).
Proof.
  unfold LogFormat.classify.
  repeat match goal with
         | |- context [if ?b then _ else _] => destruct b
         end;
    intros H; try discriminate H; injection H as <- <-;
    split; intros; discriminate.
Qed.

Lemma push_variable_inv (optarg : list ascii)
    (literal_start var_start var_name var_namelen p literal_start' : nat)
    (res res' : list LogFormat.LogFragment) :
  var_start <= length optarg ->
  well_formed res -> ends_open res ->
  LogFormat.push_variable strieq_l istartsWith optarg literal_start var_start
    var_name var_namelen p res = Some (literal_start', res') ->
  literal_start' = p /\ well_formed res' /\ ends_open res'.
Proof.
  intros Hvs Hwf Hopen. unfold LogFormat.push_variable.
  destruct (LogFormat.classify strieq_l istartsWith
              (LogFormat.span optarg var_name var_namelen))
    as [[ty v]|] eqn:Hc; [|discriminate].
  destruct (classify_type _ _ _ Hc) as [Hty Hhttp]. cbv zeta.
  assert (Hlit : well_formed
            (if literal_start <? var_start
             then res ++ [LogFormat.make_log_fragment
                            LogFormat.SHRPX_LOGF_LITERAL
                            (Some (LogFormat.span optarg literal_start
                                     (var_start - literal_start)))]
             else res)).
  { destruct (literal_start <? var_start) eqn:E; [|exact Hwf].
    apply Nat.ltb_lt in E. apply well_formed_snoc; [exact Hwf| |auto].
    split; simpl; [|discriminate].
    intros _. eexists. split; [reflexivity|]. now apply span_nonempty. }
  set (res1 := if literal_start <? var_start then _ else res) in *.
  assert (Hsnoc : forall f, LogFormat.type f = ty -> fragment_ok f ->
            well_formed (res1 ++ [f]) /\ ends_open (res1 ++ [f])).
  { intros f Hf Hok. split.
    - apply well_formed_snoc; [exact Hlit | exact Hok|].
      unfold is_literal. congruence.
    - apply ends_open_snoc. unfold is_literal. congruence. }
  destruct v as [v|]; intros H; injection H as <- <-;
    (split; [reflexivity|]); apply Hsnoc; try reflexivity.
  - split; simpl; [unfold is_literal; simpl; congruence|].
    intros _. eexists. split; [reflexivity | apply dash_no_underscore].
  - split; simpl; [unfold is_literal; simpl; congruence|].
    intros E. now apply Hhttp in E.
Qed.

Lemma parse_loop_inv (optarg : list ascii) (fuel : nat) :
  forall p literal_start res literal_start' res',
    literal_start <= p -> p <= length optarg ->
    well_formed res -> ends_open res ->
    LogFormat.parse_loop isAlpha isDigit strieq_l istartsWith optarg fuel p
      literal_start res = Some (literal_start', res') ->
    literal_start' <= length optarg /\ well_formed res' /\ ends_open res'.
Proof.
  induction fuel as [|fuel IH]; intros p ls res ls' res' Hls Hp Hwf Hopen H;
    cbn [LogFormat.parse_loop] in H;
    (destruct (p =? length optarg) eqn:E;
     [injection H as <- <-; repeat split; try assumption; lia|]);
    [discriminate|].
  apply Nat.eqb_neq in E.
  destruct (negb (Ascii.eqb (nth p optarg zero) "$")).
  { eapply IH; [| | | |exact H]; try assumption; lia. }
  cbv zeta in H.
  destruct (negb (p + 1 =? length optarg)
            && Ascii.eqb (nth (p + 1) optarg zero) "{") eqn:Eb.
  - apply andb_true_iff in Eb. destruct Eb as [Eb _].
    apply negb_true_iff, Nat.eqb_neq in Eb.
    assert (Hrun : p + 1 + 1
                   + LogFormat.token_run isAlpha isDigit
                       (skipn (p + 1 + 1) optarg) <= length optarg)
      by (apply token_run_skipn; lia).
    set (q := p + 1 + 1 + LogFormat.token_run isAlpha isDigit
                            (skipn (p + 1 + 1) optarg)) in *.
    destruct ((q =? length optarg)
              || negb (Ascii.eqb (nth q optarg zero) "}")) eqn:Ec.
    { eapply IH; [| | | |exact H]; try assumption; lia. }
    apply orb_false_iff in Ec. destruct Ec as [Ec _].
    apply Nat.eqb_neq in Ec.
    destruct (LogFormat.push_variable strieq_l istartsWith optarg ls p
                (p + 1 + 1) (q - (p + 1 + 1)) (q + 1) res)
      as [[ls1 res1]|] eqn:Hpush.
    + destruct (push_variable_inv _ _ _ _ _ _ _ _ _ Hp Hwf Hopen Hpush)
        as [-> [Hwf1 Hopen1]].
      eapply IH; [| | | |exact H]; try assumption; lia.
    + eapply IH; [| | | |exact H]; try assumption; lia.
  - assert (Hrun : p + 1
                   + LogFormat.token_run isAlpha isDigit
                       (skipn (p + 1) optarg) <= length optarg)
      by (apply token_run_skipn; lia).
    set (q := p + 1 + LogFormat.token_run isAlpha isDigit
                        (skipn (p + 1) optarg)) in *.
    destruct (LogFormat.push_variable strieq_l istartsWith optarg ls p
                (p + 1) (q - (p + 1)) q res)
      as [[ls1 res1]|] eqn:Hpush.
    + destruct (push_variable_inv _ _ _ _ _ _ _ _ _ Hp Hwf Hopen Hpush)
        as [-> [Hwf1 Hopen1]].
      eapply IH; [| | | |exact H]; try assumption; lia.
    + eapply IH; [| | | |exact H]; try assumption; lia.
Qed.

(** Every round moves [p] forward: the rounds do not run out. *)
Lemma parse_loop_returns (optarg : list ascii) (fuel : nat) :
  forall p literal_start res,
    p <= length optarg -> length optarg - p <= fuel ->
    LogFormat.parse_loop isAlpha isDigit strieq_l istartsWith optarg fuel p
      literal_start res <> None.
Proof.
  induction fuel as [|fuel IH]; intros p ls res Hp Hfuel;
    cbn [LogFormat.parse_loop];
    (destruct (p =? length optarg) eqn:E; [discriminate|]);
    apply Nat.eqb_neq in E; [lia|].
  destruct (negb (Ascii.eqb (nth p optarg zero) "$")).
  { apply IH; lia. }
  cbv zeta.
  destruct (negb (p + 1 =? length optarg)
            && Ascii.eqb (nth (p + 1) optarg zero) "{") eqn:Eb.
  - apply andb_true_iff in Eb. destruct Eb as [Eb _].
    apply negb_true_iff, Nat.eqb_neq in Eb.
    assert (Hrun : p + 1 + 1
                   + LogFormat.token_run isAlpha isDigit
                       (skipn (p + 1 + 1) optarg) <= length optarg)
      by (apply token_run_skipn; lia).
    set (q := p + 1 + 1 + LogFormat.token_run isAlpha isDigit
                            (skipn (p + 1 + 1) optarg)) in *.
    destruct ((q =? length optarg)
              || negb (Ascii.eqb (nth q optarg zero) "}")) eqn:Ec.
    { apply IH; lia. }
    apply orb_false_iff in Ec. destruct Ec as [Ec _].
    apply Nat.eqb_neq in Ec.
    destruct (LogFormat.push_variable strieq_l istartsWith optarg ls p
                (p + 1 + 1) (q - (p + 1 + 1)) (q + 1) res)
      as [[ls1 res1]|]; apply IH; lia.
  - assert (Hrun : p + 1
                   + LogFormat.token_run isAlpha isDigit
                       (skipn (p + 1) optarg) <= length optarg)
      by (apply token_run_skipn; lia).
    set (q := p + 1 + LogFormat.token_run isAlpha isDigit
                        (skipn (p + 1) optarg)) in *.
    destruct (LogFormat.push_variable strieq_l istartsWith optarg ls p
                (p + 1) (q - (p + 1)) q res)
      as [[ls1 res1]|]; apply IH; lia.
Qed.

Lemma skipn_head (A : Type) (l : list A) (p : nat) (d : A) :
  p < length l -> skipn p l = nth p l d :: skipn (S p) l.
Proof.
  revert p. induction l as [|x t IH]; intros p H; simpl in H; [lia|].
  destruct p as [|p]; [reflexivity|]. simpl. apply IH. lia.
Qed.

(** Text without '$' is passed over. *)
Lemma parse_loop_plain (optarg : list ascii) (fuel : nat) :
  forall p literal_start res,
    p <= length optarg -> length optarg - p <= fuel ->
    ~ contains (skipn p optarg) "$" ->
    LogFormat.parse_loop isAlpha isDigit strieq_l istartsWith optarg fuel p
      literal_start res = Some (literal_start, res).
Proof.
  induction fuel as [|fuel IH]; intros p ls res Hp Hfuel Hno;
    cbn [LogFormat.parse_loop];
    (destruct (p =? length optarg) eqn:E; [reflexivity|]);
    apply Nat.eqb_neq in E; [lia|].
  rewrite (skipn_head _ optarg p zero) in Hno by lia.
  destruct (Ascii.eqb (nth p optarg zero) "$") eqn:Ed.
  - apply Ascii.eqb_eq in Ed. exfalso. apply Hno. now left.
  - simpl negb. cbv iota. apply IH; [lia | lia |].
    replace (p + 1) with (S p) by lia.
    intros Hin. apply Hno. now right.
Qed.

(** X14.  [parse_log_format] returns for every format string, and what
    it returns is well formed: every literal fragment carries a
    non-empty text, no two literal fragments stand side by side, and
    every HTTP header fragment carries a name without '_'. *)
Theorem parse_log_format_well_formed (optarg : list ascii) :
  exists res,
    LogFormat.parse_log_format isAlpha isDigit strieq_l istartsWith optarg
    = Some res
    /\ well_formed res.
Proof.
  unfold LogFormat.parse_log_format.
  destruct (LogFormat.parse_loop isAlpha isDigit strieq_l istartsWith optarg
              (length optarg) 0 0 []) as [[ls res]|] eqn:Hloop.
  - destruct (parse_loop_inv optarg (length optarg) 0 0 [] ls res)
      as [Hls [Hwf Hopen]]; try assumption; try lia; try exact I.
    destruct (ls =? length optarg) eqn:E; simpl negb; cbv iota.
    + now exists res.
    + apply Nat.eqb_neq in E. eexists. split; [reflexivity|].
      apply well_formed_snoc; [exact Hwf | | auto].
      split; simpl; [|discriminate].
      intros _. eexists. split; [reflexivity|].
      apply span_nonempty; lia.
  - exfalso. revert Hloop. apply parse_loop_returns; lia.
Qed.

(** X15.  A format string without '$' is kept whole: it gives the single
    literal fragment that carries it, and no fragment when it is empty. *)
Theorem parse_log_format_plain (optarg : list ascii) :
  ~ contains optarg "$" ->
  LogFormat.parse_log_format isAlpha isDigit strieq_l istartsWith optarg
  = Some match optarg with
         | [] => []
         | _ :: _ =>
             [LogFormat.make_log_fragment LogFormat.SHRPX_LOGF_LITERAL
                (Some optarg)]
         end.
Proof.
  intros Hno. unfold LogFormat.parse_log_format.
  rewrite parse_loop_plain by (try exact Hno; lia).
  destruct optarg as [|c t]; [reflexivity|].
  simpl Nat.eqb. simpl negb. cbv iota. unfold LogFormat.span.
  rewrite Nat.sub_0_r. simpl skipn. now rewrite firstn_all.
Qed.

End LogFormat_facts.

(** A format string with no variable in it, read with helpers that
    recognize nothing. *)
Lemma parse_log_format_plain_example :
  LogFormat.parse_log_format (fun _ => false) (fun _ => false)
    (fun _ _ => false) (fun _ _ => false) (str "GET / 200")
  = Some [LogFormat.make_log_fragment LogFormat.SHRPX_LOGF_LITERAL
            (Some (str "GET / 200"))].
Proof.
  apply (parse_log_format_plain (fun _ => false) (fun _ => false)
           (fun _ _ => false) (fun _ _ => false) (str "GET / 200")).
  unfold contains. simpl. intros H.
  repeat (destruct H as [H | H]; [discriminate H|]). exact H.
Defined.

(** The directive "localhost,80;Example.com/a:/b" on the empty table,
    with a port reader that answers 80 and no unix prefix recognized. *)
Lemma parse_config_backend_accepts_example :
  exists addr a mapping,
    (str "localhost,80;Example.com/a:/b" = a /\ mapping = []
     \/ str "localhost,80;Example.com/a:/b" = a ++ ";" :: mapping)
    /\ ~ contains a ";" /\ ~ contains mapping ";"
    /\ host addr = str "localhost" /\ port addr = 80.
Proof.
  destruct (parse_config_backend_accepts (fun _ _ => 80%Z) 64
              (fun _ _ => false) (str "unix:") 64
              (mkDownstreamAddr [] 0 false) (fun s => s)
              (str "localhost,80;Example.com/a:/b") []
              [mkDownstreamAddrGroup (str "example.com/a")
                 [mkDownstreamAddr (str "localhost") 80 false];
               mkDownstreamAddrGroup (str "/b")
                 [mkDownstreamAddr (str "localhost") 80 false]]
              eq_refl)
    as [addr [a [mapping [Hshape [Ha [Hm [Haddr _]]]]]]].
  exists addr, a, mapping.
  split; [exact Hshape|]. split; [exact Ha|]. split; [exact Hm|].
  assert (Hlen : length a = 12).
  { destruct Hshape as [[Hs ->] | Hs].
    - exfalso. apply Ha. rewrite <- Hs. unfold contains. simpl.
      do 12 right. now left.
    - pose proof (strchr_hit a mapping ";" Ha) as Hk.
      rewrite <- Hs in Hk. vm_compute in Hk. now injection Hk. }
  rewrite Hlen in Haddr. vm_compute in Haddr. injection Haddr as <-.
  split; reflexivity.
Defined.

(** ** What reaches [path_match] *)

Lemma firstn_no_char (s : list ascii) (c : ascii) (n : nat) :
  ~ contains s c -> ~ contains (firstn n s) c.
Proof.
  unfold contains. intros H Hin. apply H.
  rewrite <- (firstn_skipn n s). apply in_or_app. now left.
Qed.

Lemma extract_host_prefix (hostport x : list ascii) :
  extract_host hostport = Some x -> exists n, x = firstn n hostport.
Proof.
  unfold extract_host.
  destruct (Ascii.eqb (nth 0 hostport zero) "[").
  - destruct (Std.find hostport "]" =? length hostport); [discriminate|].
    destruct ((Std.find hostport "]" + 1 <? length hostport) && _);
      [discriminate|].
    intros H. injection H as <-. eauto.
  - destruct (Std.find hostport ":" =? 0); [discriminate|].
    intros H. injection H as <-. eauto.
Qed.

Lemma request_host_no_slash (hostport h : list ascii) :
  request_host hostport = Some h -> ~ contains h "/".
Proof.
  unfold request_host. rewrite existsb_find.
  destruct (Std.find hostport "/" =? length hostport) eqn:E;
    [|discriminate].
  apply Nat.eqb_eq in E.
  assert (Hno : ~ contains hostport "/").
  { intros Hin. apply find_lt_iff in Hin. lia. }
  simpl negb. cbv iota.
  destruct hostport as [|c t].
  - intros H. injection H as <-. intros [].
  - destruct (extract_host (c :: t)) as [x|] eqn:Hx; [|discriminate].
    simpl. intros H. injection H as <-.
    destruct (extract_host_prefix _ _ Hx) as [n ->].
    apply inp_strlower_no_slash. now apply firstn_no_char.
Qed.

(** X16.  The host the router matches with never holds a '/'; so for
    every request the router matches, a pattern that ends in '/' matches
    exactly when host followed by path starts with the pattern or is
    the pattern without its last '/'. *)
Theorem routed_host_prefix_rule (hostport h P p : list ascii) :
  request_host hostport = Some h ->
  ~ contains h "/"
  /\ (Std.back P = "/" ->
      (path_match P h p = true
       <-> has_prefix (h ++ p) P \/ h ++ p = removelast P)).
Proof.
  intros Hh. pose proof (request_host_no_slash _ _ Hh) as Hno.
  split; [exact Hno|]. intros Hback.
  rewrite (path_match_dir P h p Hback). split.
  - intros [[_ H] | H]; [now left | now right].
  - intros [H | H]; [left | now right].
    split; [|exact H]. now apply (prefix_longer_than_host P h p).
Qed.

(** The authority "Example.com:8080". *)
Lemma routed_host_prefix_rule_example :
  ~ contains (str "example.com") "/".
Proof.
  exact (proj1 (routed_host_prefix_rule (str "Example.com:8080")
                  (str "example.com") (str "example.com/") (str "/x")
                  eq_refl)).
Defined.

(** ** Pools and patterns *)

Lemma match_loop_patterns (h p : list ascii) :
  forall groups groups' i res best,
    map pattern groups = map pattern groups' ->
    match_loop h p groups i res best = match_loop h p groups' i res best.
Proof.
  induction groups as [|g rest IH]; intros [|g' rest'] i res best H;
    try discriminate H; [reflexivity|].
  simpl in H. injection H as Hp Hrest. simpl. rewrite Hp.
  destruct (negb (path_match (pattern g') h p)); [now apply IH|].
  destruct ((res =? -1)%Z || (best <? length (pattern g'))); now apply IH.
Qed.

(** X17.  Routing looks at the patterns of the table only: two tables
    with the same patterns in the same order route every request alike,
    whatever addresses their pools hold. *)
Theorem route_ignores_pools (hostport raw_path : list ascii)
    (groups groups' : list DownstreamAddrGroup) (catch_all : nat) :
  map pattern groups = map pattern groups' ->
  match_downstream_addr_group hostport raw_path groups catch_all
  = match_downstream_addr_group hostport raw_path groups' catch_all.
Proof.
  intros H.
  assert (Hm : forall h p, match_ h p groups = match_ h p groups')
    by (intros h p; now apply match_loop_patterns).
  rewrite !route_via_host. destruct (request_host hostport) as [h|];
    [|reflexivity].
  unfold match_downstream_addr_group_host. now rewrite !Hm.
Qed.

(** One pattern, two pools. *)
Lemma route_ignores_pools_example :
  match_downstream_addr_group (str "example.com") (str "/")
    [mkDownstreamAddrGroup (str "/")
       [mkDownstreamAddr (str "10.0.0.1") 80 false]] 0
  = match_downstream_addr_group (str "example.com") (str "/")
      [mkDownstreamAddrGroup (str "/")
         [mkDownstreamAddr (str "10.0.0.2") 81 false;
          mkDownstreamAddr (str "/run/backend.sock") 0 true]] 0.
Proof. now apply route_ignores_pools. Defined.

Section Nonempty_patterns.

Variable normalize_path : list ascii -> list ascii.
Hypothesis normalize_path_nonempty : forall s, normalize_path s <> [].

Lemma normalize_pattern_nonempty (raw_pattern : list ascii) :
  Config.normalize_pattern normalize_path raw_pattern <> [].
Proof.
  unfold Config.normalize_pattern.
  destruct (Std.strchr raw_pattern "/").
  - intros H. apply app_eq_nil in H. destruct H as [_ H].
    now apply normalize_path_nonempty in H.
  - intros H. apply app_eq_nil in H. destruct H as [_ H]. discriminate H.
Qed.

Lemma add_group_nonempty groups pat addr :
  pat <> [] ->
  Forall (fun g => pattern g <> []) groups ->
  Forall (fun g => pattern g <> []) (Config.add_group groups pat addr).
Proof.
  intros Hpat Hall. destruct (in_patterns_dec pat groups) as [H | H].
  - destruct (add_group_merge groups pat addr H)
      as [pre [g [post [Hg [Hp [_ ->]]]]]].
    subst groups. apply Forall_app in Hall. destruct Hall as [Hpre Hpost].
    apply Forall_app. split; [exact Hpre|].
    constructor; [exact Hpat|]. now apply Forall_inv_tail in Hpost.
  - rewrite (add_group_new groups pat addr H).
    apply Forall_app. split; [exact Hall|]. now repeat constructor.
Qed.

(** X18.  When [http2::normalize_path] never returns the empty string,
    [parse_mapping] keeps every pattern of the table non-empty, which is
    what [path_match] asserts of the patterns it is given. *)
Theorem parse_mapping_patterns_nonempty (addr : DownstreamAddr)
    (src : list ascii) (groups : list DownstreamAddrGroup) :
  Forall (fun g => pattern g <> []) groups ->
  Forall (fun g => pattern g <> [])
    (Config.parse_mapping normalize_path addr src groups).
Proof.
  unfold Config.parse_mapping.
  generalize (Config.parse_config_str_list src ":") as toks.
  intros toks. revert groups.
  induction toks as [|raw toks IH]; intros groups Hall; simpl; [exact Hall|].
  apply IH. apply add_group_nonempty; [|exact Hall].
  apply normalize_pattern_nonempty.
Qed.

End Nonempty_patterns.

(** A directive on the empty table, the path part left as it is. *)
Lemma parse_mapping_patterns_nonempty_example :
  Forall (fun g => pattern g <> [])
    (Config.parse_mapping (fun s => "/" :: s)
       (mkDownstreamAddr (str "127.0.0.1") 80 false) (str "a:/b:") []).
Proof.
  apply (parse_mapping_patterns_nonempty (fun s => "/" :: s)).
  - intros s. discriminate.
  - constructor.
Defined.
